(** * Circuit breaker: a shallow embedding of [circuit_breaker.py]

    The development follows the source file top-down:

    - Python exceptions and what a wrapped function can do when invoked;
    - the attributes of a [CircuitBreaker] instance and the three methods
      [reset], [record_failure] and [call];
    - the singleton constructor ([__new__] followed by [__init__]) over a
      small object store;
    - runs of successive [call]s;
    - an interleaving semantics of several threads inside [call], with an
      atomic step per lock-protected block and per unprotected statement.

    Clock readings ([time.time()]) are inputs of the model: integer ticks of
    an arbitrary resolution.  The source only subtracts two readings and
    compares the difference with [reset_timeout].  Calls to [logger] are
    left out, as they do not touch the breaker; what is kept of line 64 is
    the formatting of the exception for its message, which can raise. *)

From Stdlib Require Import ZArith Bool Lia.
From stdpp Require Import base option list strings.

Local Open Scope Z_scope.

(** ** Python exceptions *)

(** The classes that matter to [call]: [except Exception] catches every
    class below [Exception] and lets the other [BaseException]s through. *)
Inductive exc_class : Type :=
  | RuntimeError
  | TypeError
  | ValueError
  | OtherException (name : string)
  | KeyboardInterrupt
  | SystemExit
  | GeneratorExit
  | OtherBaseException (name : string).

(** An exception object, as far as this program can tell exceptions apart:
    its class and what [str(e)] does.  [Exc c msg] is an exception of class
    [c] whose [__str__] returns [msg], as for every built-in exception
    raised with one string argument; [Unprintable c e'] is one of class [c]
    whose [__str__] raises [e']. *)
Inductive exception : Type :=
  | Exc (c : exc_class) (msg : string)
  | Unprintable (c : exc_class) (e' : exception).

Definition exc_type (e : exception) : exc_class :=
  match e with
  | Exc c _ => c
  | Unprintable c _ => c
  end.

(** [isinstance(e, Exception)]. *)
Definition is_Exception (e : exception) : bool :=
  match exc_type e with
  | RuntimeError | TypeError | ValueError | OtherException _ => true
  | KeyboardInterrupt | SystemExit | GeneratorExit | OtherBaseException _ => false
  end.

(** The two errors [call] raises itself (lines 48 and 53). *)
Definition circuit_open_error : exception :=
  Exc RuntimeError "Circuit is open. Service call blocked.".

Definition half_open_limit_error : exception :=
  Exc RuntimeError "Circuit is HALF-OPEN. Too many test requests.".

(** [time.time() - None] at line 42. *)
Definition none_operand_error : exception :=
  Exc TypeError "unsupported operand type(s) for -: 'float' and 'NoneType'".

(** What [func( *args, **kwargs)] does once it is invoked. *)
Inductive behaviour (R : Type) : Type :=
  | Returns (r : R)
  | Raises (e : exception).
Arguments Returns {R} r.
Arguments Raises {R} e.

(** How a Python call ends for its caller. *)
Inductive completion (R : Type) : Type :=
  | Returned (r : R)
  | Raised (e : exception).
Arguments Returned {R} r.
Arguments Raised {R} e.

(** [str(e)], which is what formatting [e] in an f-string evaluates. *)
Definition str (e : exception) : completion string :=
  match e with
  | Exc _ msg => Returned msg
  | Unprintable _ e' => Raised e'
  end.

(** The exception that leaves the handler of lines 61-65.  After
    [record_failure], line 64 formats [e] for the log message; when that
    raises, its exception propagates instead, and otherwise the bare
    [raise] of line 65 re-raises [e] itself. *)
Definition reraised (e : exception) : exception :=
  match str e with
  | Returned _ => e
  | Raised e' => e'
  end.

(** ** The breaker's attributes *)

Inductive circuit_state : Type := CLOSED | OPEN | HALF_OPEN.

Record breaker : Type := Breaker {
  max_failures : Z;
  reset_timeout : Z;
  half_open_max_requests : Z;
  failure_count : Z;
  last_failure_time : option Z;
  state : circuit_state;
  half_open_request_count : Z
}.

Definition set_failure_count (n : Z) (b : breaker) : breaker :=
  Breaker (max_failures b) (reset_timeout b) (half_open_max_requests b)
          n (last_failure_time b) (state b) (half_open_request_count b).

Definition set_last_failure_time (t : option Z) (b : breaker) : breaker :=
  Breaker (max_failures b) (reset_timeout b) (half_open_max_requests b)
          (failure_count b) t (state b) (half_open_request_count b).

Definition set_state (s : circuit_state) (b : breaker) : breaker :=
  Breaker (max_failures b) (reset_timeout b) (half_open_max_requests b)
          (failure_count b) (last_failure_time b) s (half_open_request_count b).

Definition set_half_open_request_count (n : Z) (b : breaker) : breaker :=
  Breaker (max_failures b) (reset_timeout b) (half_open_max_requests b)
          (failure_count b) (last_failure_time b) (state b) n.

(** The attributes [__init__] assigns (lines 28-35). *)
Definition fresh (mf rt hm : Z) : breaker :=
  Breaker mf rt hm 0 None CLOSED 0.

Definition is_half_open (b : breaker) : bool :=
  match state b with HALF_OPEN => true | _ => false end.

Definition is_open (b : breaker) : bool :=
  match state b with OPEN => true | _ => false end.

(** ** Methods *)

(** [reset] (lines 78-82). *)
Definition reset (b : breaker) : breaker :=
  set_half_open_request_count 0 (set_state CLOSED (set_failure_count 0 b)).

(** [record_failure] (lines 67-76); [now] is the reading of line 76. *)
Definition record_failure (now : Z) (b : breaker) : breaker :=
  let b1 := set_failure_count (failure_count b + 1) b in
  let b2 :=
    if is_half_open b1 then set_state OPEN b1
    else if max_failures b1 <=? failure_count b1 then set_state OPEN b1
    else b1 in
  set_last_failure_time (Some now) b2.

(** Lines 40-48, the block under the lock: [inr e] when the block raises
    [e], otherwise [inl] of the breaker it leaves.  [now] is the reading of
    line 42. *)
Definition open_gate (now : Z) (b : breaker) : breaker + exception :=
  if is_open b then
    match last_failure_time b with
    | None => inr none_operand_error
    | Some t =>
        if reset_timeout b <=? now - t
        then inl (set_half_open_request_count 0 (set_state HALF_OPEN b))
        else inr circuit_open_error
    end
  else inl b.

(** Lines 50-54, outside the lock. *)
Definition half_open_gate (b : breaker) : breaker + exception :=
  if is_half_open b then
    if half_open_max_requests b <=? half_open_request_count b
    then inr half_open_limit_error
    else inl (set_half_open_request_count (half_open_request_count b + 1) b)
  else inl b.

(** Lines 56-65: the invocation has behaved as [f]; [later] is the reading
    [record_failure] takes.  An [Exception] is recorded and then leaves the
    handler as [reraised] says.  An exception that is not an [Exception]
    leaves the [try] statement without passing through either handler. *)
Definition settle {R} (f : behaviour R) (later : Z) (b : breaker)
  : completion R * breaker :=
  match f with
  | Returns r => (Returned r, reset b)
  | Raises e =>
      if is_Exception e then (Raised (reraised e), record_failure later b)
      else (Raised e, b)
  end.

(** What one [call] amounts to: how it ends, the breaker it leaves, and
    whether [func] was invoked. *)
Record report (R : Type) : Type := Report {
  ending : completion R;
  after : breaker;
  invoked : bool
}.
Arguments Report {R} _ _ _.
Arguments ending {R} _.
Arguments after {R} _.
Arguments invoked {R} _.

(** [call] (lines 39-65). *)
Definition call {R} (b : breaker) (now : Z) (f : behaviour R) (later : Z)
  : report R :=
  match open_gate now b with
  | inr e => Report (Raised e) b false
  | inl b1 =>
      match half_open_gate b1 with
      | inr e => Report (Raised e) b1 false
      | inl b2 =>
          let (c, b3) := settle f later b2 in
          Report c b3 true
      end
  end.

(** The breaker as it stands when [func] is invoked, if it is. *)
Definition admitted (b : breaker) (now : Z) : option breaker :=
  match open_gate now b with
  | inr _ => None
  | inl b1 =>
      match half_open_gate b1 with
      | inr _ => None
      | inl b2 => Some b2
      end
  end.

(** ** The singleton constructor *)

(** An object of class [CircuitBreaker]: as [__new__] allocates it, with
    [__initialized = False] and nothing else, or as [__init__] leaves it,
    with [__initialized = True] and the seven attributes. *)
Inductive object : Type :=
  | Blank
  | Ready (b : breaker).

(** Objects live in a heap and are handled through their address; the class
    attribute [_instance] holds [None] or the address of the instance. *)
Record store : Type := Store {
  heap : list object;
  _instance : option nat
}.

Definition empty_store : store := Store [] None.

(** [__new__] (lines 14-20): the address returned and the store left.  An
    instance is always truthy, so [not cls._instance] tests for [None]. *)
Definition __new__ (s : store) : nat * store :=
  match _instance s with
  | Some l => (l, s)
  | None =>
      let l := length (heap s) in
      (l, Store (heap s ++ [Blank]) (Some l))
  end.

(** [__init__] (lines 22-37) on the object at [self]. *)
Definition __init__ (self : nat) (mf rt hm : Z) (s : store) : store :=
  match heap s !! self with
  | Some Blank => Store (<[self := Ready (fresh mf rt hm)]> (heap s)) (_instance s)
  | Some (Ready _) => s
  | None => s
  end.

(** [CircuitBreaker(mf, rt, hm)]: [__new__], then [__init__] on its result. *)
Definition construct (mf rt hm : Z) (s : store) : nat * store :=
  let (self, s1) := __new__ s in
  (self, __init__ self mf rt hm s1).

(** [ref.call(func, ...)] through a reference: the one object at [ref] is
    updated in place.  A reference to an object without attributes fails at
    the first attribute read. *)
Definition call_on {R} (ref : nat) (now : Z) (f : behaviour R) (later : Z)
    (s : store) : completion R * store :=
  match heap s !! ref with
  | Some (Ready b) =>
      let r := call b now f later in
      (ending r, Store (<[ref := Ready (after r)]> (heap s)) (_instance s))
  | _ =>
      (Raised (Exc (OtherException "AttributeError")
                   "'CircuitBreaker' object has no attribute 'state'"), s)
  end.

(** ** Successive calls *)

(** One [call] as the breaker's environment determines it: the clock at
    line 42, what [func] does, and the clock at line 76. *)
Record request (R : Type) : Type := Request {
  entry_time : Z;
  func : behaviour R;
  failure_time : Z
}.
Arguments Request {R} _ _ _.
Arguments entry_time {R} _.
Arguments func {R} _.
Arguments failure_time {R} _.

Definition serve {R} (b : breaker) (q : request R) : report R :=
  call b (entry_time q) (func q) (failure_time q).

(** The breaker after a sequence of calls, one after the other. *)
Fixpoint run {R} (b : breaker) (qs : list (request R)) : breaker :=
  match qs with
  | [] => b
  | q :: qs' => run (after (serve b q)) qs'
  end.

(** How each call of the sequence ended and whether it invoked [func]. *)
Fixpoint transcript {R} (b : breaker) (qs : list (request R))
  : list (completion R * bool) :=
  match qs with
  | [] => []
  | q :: qs' =>
      let r := serve b q in
      (ending r, invoked r) :: transcript (after r) qs'
  end.

(** ** Threads inside [call] *)

(** Several threads run [call] on the one instance.  A thread holds the
    lock throughout a [with self._lock] block and nothing in such a block
    waits, so each block is one step; lines 50, 51 and 54 run without the
    lock and are one step each.  Every behaviour of this semantics is a
    behaviour of the program (the program has more: an unprotected
    statement may also run while another thread is inside a block). *)
Module Interleaving.

Section Threads.

Variable R : Type.

(** Where a thread stands, by the line it executes next. *)
Inductive pc : Type :=
  | L40                       (* with self._lock: lines 41-48 *)
  | L50                       (* if self.state == "HALF-OPEN": *)
  | L51                       (* if count >= max: raise (lines 51-53) *)
  | L54                       (* self.half_open_request_count += 1 *)
  | L57                       (* result = func( *args, **kwargs) *)
  | L58 (r : R)               (* with self._lock: self.reset(); return *)
  | L62 (e : exception)       (* with self._lock: self.record_failure(); raise *)
                              (* (lines 62-65; lines 64-65 touch no attribute) *)
  | Done (c : completion R).

Record thread : Type := Thread { at_line : pc; does : behaviour R }.

Inductive event : Type := Quiet | Invoke | Reject.

(** One step of a thread on the shared breaker; [now] is the clock for a
    step that reads it.  A finished thread has no step. *)
Definition advance (now : Z) (b : breaker) (th : thread)
  : option (breaker * thread * event) :=
  let goto l := Thread l (does th) in
  match at_line th with
  | L40 =>
      match open_gate now b with
      | inr e => Some (b, goto (Done (Raised e)), Reject)
      | inl b1 => Some (b1, goto L50, Quiet)
      end
  | L50 =>
      if is_half_open b then Some (b, goto L51, Quiet)
      else Some (b, goto L57, Quiet)
  | L51 =>
      if half_open_max_requests b <=? half_open_request_count b
      then Some (b, goto (Done (Raised half_open_limit_error)), Reject)
      else Some (b, goto L54, Quiet)
  | L54 =>
      Some (set_half_open_request_count (half_open_request_count b + 1) b,
            goto L57, Quiet)
  | L57 =>
      match does th with
      | Returns r => Some (b, goto (L58 r), Invoke)
      | Raises e =>
          if is_Exception e then Some (b, goto (L62 e), Invoke)
          else Some (b, goto (Done (Raised e)), Invoke)
      end
  | L58 r => Some (reset b, goto (Done (Returned r)), Quiet)
  | L62 e => Some (record_failure now b, goto (Done (Raised (reraised e))), Quiet)
  | Done _ => None
  end.

Record system : Type := System {
  shared : breaker;
  threads : list thread;
  invocations : nat;
  rejections : nat
}.

Definition tally (ev : event) (s : system) (b : breaker) (ths : list thread)
  : system :=
  match ev with
  | Quiet => System b ths (invocations s) (rejections s)
  | Invoke => System b ths (S (invocations s)) (rejections s)
  | Reject => System b ths (invocations s) (S (rejections s))
  end.

(** The scheduler lets thread [tid] take its next step. *)
Definition step (tid : nat) (now : Z) (s : system) : option system :=
  match threads s !! tid with
  | None => None
  | Some th =>
      match advance now (shared s) th with
      | None => None
      | Some (b, th', ev) => Some (tally ev s b (<[tid := th']> (threads s)))
      end
  end.

(** A schedule: which thread steps, and what the clock shows then. *)
Fixpoint exec (sch : list (nat * Z)) (s : system) : option system :=
  match sch with
  | [] => Some s
  | (tid, now) :: sch' =>
      match step tid now s with
      | None => None
      | Some s' => exec sch' s'
      end
  end.

(** [n] threads about to enter [call], each with a [func] that does [f]. *)
Definition launch (b : breaker) (n : nat) (f : behaviour R) : system :=
  System b (replicate n (Thread L40 f)) 0 0.

(** A thread on its own, for at most [n] steps: the clock shows [now] at
    its first step and [later] afterwards. *)
Fixpoint drive (n : nat) (now later : Z) (b : breaker) (th : thread)
    (inv : bool) : breaker * thread * bool :=
  match n with
  | O => (b, th, inv)
  | S n' =>
      match advance now b th with
      | None => (b, th, inv)
      | Some (b', th', ev) =>
          drive n' later later b' th'
                (match ev with Invoke => true | _ => inv end)
      end
  end.

End Threads.

Arguments L40 {R}.
Arguments L50 {R}.
Arguments L51 {R}.
Arguments L54 {R}.
Arguments L57 {R}.
Arguments L58 {R} r.
Arguments L62 {R} e.
Arguments Done {R} c.
Arguments Thread {R} _ _.
Arguments at_line {R} _.
Arguments does {R} _.
Arguments advance {R} _ _ _.
Arguments System {R} _ _ _ _.
Arguments shared {R} _.
Arguments threads {R} _.
Arguments invocations {R} _.
Arguments rejections {R} _.
Arguments step {R} _ _ _.
Arguments exec {R} _ _.
Arguments launch {R} _ _ _.
Arguments drive {R} _ _ _ _ _ _.

End Interleaving.

(** ** Programs over the store *)

(** What a client program does with the class: construct, or call through
    a reference it holds. *)
Inductive action (R : Type) : Type :=
  | Construct (mf rt hm : Z)
  | CallOn (ref : nat) (now : Z) (f : behaviour R) (later : Z).
Arguments Construct {R} _ _ _.
Arguments CallOn {R} _ _ _ _.

Definition perform {R} (s : store) (a : action R) : store :=
  match a with
  | Construct mf rt hm => snd (construct mf rt hm s)
  | CallOn ref now f later => snd (call_on ref now f later s)
  end.

Fixpoint play {R} (s : store) (acts : list (action R)) : store :=
  match acts with
  | [] => s
  | a :: acts' => play (perform s a) acts'
  end.

(** The class holds an initialised instance. *)
Definition has_instance (s : store) : Prop :=
  exists self b, _instance s = Some self /\ heap s !! self = Some (Ready b).

(** ** Five calls at once *)

(** Every thread in turn takes one step while the clock shows [now]. *)
Definition round_robin (n : nat) (now : Z) : list (nat * Z) :=
  (fun tid => (tid, now)) <$> seq 0 n.

(** Five threads, three ticks after the breaker tripped, in lockstep: all
    of them execute line 40, then all line 50, line 51, line 54, line 57. *)
Definition lockstep_entry : list (nat * Z) :=
  round_robin 5 3 ++ round_robin 5 3 ++ round_robin 5 3 ++
  round_robin 5 3 ++ round_robin 5 3.



(** ** Invariants of the breaker *)

(** While HALF-OPEN, no more trials are counted than the cap allows. *)
Definition trials_bounded (b : breaker) : Prop :=
  state b = HALF_OPEN ->
  half_open_request_count b <= half_open_max_requests b.

(** An OPEN breaker has a time of last failure. *)
Definition open_is_timed (b : breaker) : Prop :=
  state b = OPEN -> is_Some (last_failure_time b).

(** A breaker that is not CLOSED has reached its failure threshold. *)
Definition threshold_reached (b : breaker) : Prop :=
  state b <> CLOSED -> max_failures b <= failure_count b.

(** ** The driver's breaker and service *)

(** [unreliable_service] (lines 85-88) as a behaviour, and the breaker of
    line 91. *)
Definition service_failed : exception := Exc ValueError "Service failed!".

Definition service_ok : behaviour string := Returns "Service succeeded!".

Definition service_ko : behaviour string := Raises service_failed.

Definition circuit_breaker : breaker := fresh 3 3 2.

Definition succeeds_at (t : Z) : request string := Request t service_ok t.

Definition fails_at (t : Z) : request string := Request t service_ko t.

(** The requests of lines 104-126, with the pause of line 116. *)
Definition driver_requests : list (request string) :=
  [succeeds_at 0; succeeds_at 0;
   fails_at 0; fails_at 0; fails_at 0; fails_at 0;
   succeeds_at 3; fails_at 3; fails_at 3; succeeds_at 3;
   succeeds_at 3].

(** The driver's breaker after three failed requests at time 0. *)
Definition tripped : breaker :=
  run circuit_breaker [fails_at 0; fails_at 0; fails_at 0].

(** ** Kinds of requests *)

(** [func] raises something the handler of line 61 catches. *)
Definition recorded {R} (f : behaviour R) : bool :=
  match f with
  | Returns _ => false
  | Raises e => is_Exception e
  end.

Definition fails {R} (q : request R) : bool := recorded (func q).

Definition succeeds {R} (q : request R) : bool :=
  match func q with
  | Returns _ => true
  | Raises _ => false
  end.

(** The three constructor arguments as the instance holds them. *)
Definition config (b : breaker) : Z * Z * Z :=
  (max_failures b, reset_timeout b, half_open_max_requests b).

(** ** Properties kept by every update of the attributes *)

(** The source writes the attributes in four places: the locked block of
    lines 41-48, the increment of line 54, [reset] and [record_failure].  A
    property kept by each of them is kept by every call and under every
    schedule. *)
Definition stable (P : breaker -> Prop) : Prop :=
  forall (now : Z) (b : breaker),
    P b ->
    (forall b1, open_gate now b = inl b1 -> P b1) /\
    P (set_half_open_request_count (half_open_request_count b + 1) b) /\
    P (reset b) /\
    P (record_failure now b).

(** Neither counter is negative. *)
Definition counters_nonneg (b : breaker) : Prop :=
  0 <= failure_count b /\ 0 <= half_open_request_count b.

(** With a positive threshold, the circuit is CLOSED exactly while fewer
    failures than the threshold are counted. *)
Definition closed_below_threshold (b : breaker) : Prop :=
  0 < max_failures b /\
  (state b = CLOSED <-> failure_count b < max_failures b).

(** A thread that has not passed line 40, or was turned away there. *)
Definition kept_out {R} (th : Interleaving.thread R) : Prop :=
  Interleaving.at_line th = Interleaving.L40 \/
  Interleaving.at_line th = Interleaving.Done (Raised circuit_open_error).

(** A thread whose function returns [r], on a path that has met neither
    gate's refusal nor a failure. *)
Definition unhindered {R} (r : R) (th : Interleaving.thread R) : Prop :=
  Interleaving.does th = Returns r /\
  (Interleaving.at_line th = Interleaving.L40 \/
   Interleaving.at_line th = Interleaving.L50 \/
   Interleaving.at_line th = Interleaving.L57 \/
   Interleaving.at_line th = Interleaving.L58 r \/
   Interleaving.at_line th = Interleaving.Done (Returned r)).

(** The class has allocated nothing, or one initialised object at address
    0 that [_instance] refers to. *)
Definition singleton (s : store) : Prop :=
  (heap s = [] /\ _instance s = None) \/
  (exists b, heap s = [Ready b] /\ _instance s = Some 0%nat).

(** ** The driver's functions *)

(** [unreliable_service] (lines 85-88). *)
Definition unreliable_service (should_fail : bool) : behaviour string :=
  if should_fail then Raises (Exc ValueError "Service failed!")
  else Returns "Service succeeded!".

(** The values successive calls of [time.time()] return. *)
Definition clock : Type := nat -> Z.

(** [call] with the clock read where the source reads it: at line 42 when
    the breaker is OPEN on entry, at line 76 when a failure is recorded.
    [k] readings have been taken before the call; the second component is
    the number taken after it. *)
Definition clocked_call {R} (clk : clock) (k : nat) (b : breaker)
    (f : behaviour R) : report R * nat :=
  let k1 := if is_open b then S k else k in
  let r := call b (clk k) f (clk k1) in
  (r, if invoked r && recorded f then S k1 else k1).

(** What a statement of the driver does to its surroundings. *)
Inductive effect : Type :=
  | Prints (line : string)
  | Propagates (e : exception).

(** The handlers of [make_request] (lines 95-101).  Each formats the
    exception it caught; if that raises, the exception raised leaves
    [make_request].  Named classes are taken not to derive from
    [RuntimeError]; [call] on [unreliable_service] raises none of them. *)
Definition handle (c : completion string) : effect :=
  match c with
  | Returned result => Prints result
  | Raised e =>
      if is_Exception e then
        match str e with
        | Returned text =>
            match exc_type e with
            | RuntimeError => Prints ("RuntimeError: " ++ text)
            | _ => Prints ("Service call exception: " ++ text)
            end
        | Raised e' => Propagates e'
        end
      else Propagates e
  end.

(** [make_request] (lines 94-101) on the module's breaker. *)
Definition make_request (should_fail : bool) (clk : clock) (k : nat)
    (b : breaker) : effect * breaker * nat :=
  let (r, k') := clocked_call clk k b (unreliable_service should_fail) in
  (handle (ending r), after r, k').

(** The statements of lines 104-126. *)
Inductive stmt : Type :=
  | Banner (title : string)
  | MakeRequest (should_fail : bool)
  | Sleep (seconds : Z).

Definition driver_script : list stmt :=
  [Banner "--- Initial successful requests ---";
   MakeRequest false; MakeRequest false;
   Banner "--- Simulating failures ---";
   MakeRequest true; MakeRequest true; MakeRequest true; MakeRequest true;
   Banner "--- Waiting for reset timeout ---";
   Sleep 3;
   Banner "--- Circuit transitions to HALF-OPEN ---";
   MakeRequest false; MakeRequest true; MakeRequest true; MakeRequest false;
   Banner "--- Back to normal operation ---";
   MakeRequest false].

(** Running statements in order: the lines written to standard output, the
    breaker and the number of clock readings, until a statement lets an
    exception through.  A banner is printed after an empty line; a pause
    shows only in the clock. *)
Fixpoint interpret (clk : clock) (k : nat) (b : breaker) (prog : list stmt)
  : list string * option exception * breaker * nat :=
  match prog with
  | [] => ([], None, b, k)
  | Banner title :: prog' =>
      let '(out, exn, b', k') := interpret clk k b prog' in
      (EmptyString :: title :: out, exn, b', k')
  | Sleep _ :: prog' => interpret clk k b prog'
  | MakeRequest should_fail :: prog' =>
      match make_request should_fail clk k b with
      | (Prints line, b1, k1) =>
          let '(out, exn, b', k') := interpret clk k1 b1 prog' in
          (line :: out, exn, b', k')
      | (Propagates e, b1, k1) => ([], Some e, b1, k1)
      end
  end.

(** * Properties *)

(** ** Shapes of the two gates *)

Lemma open_gate_not_open (now : Z) (b : breaker) :
  state b <> OPEN -> open_gate now b = inl b.
Proof.
  unfold open_gate, is_open. destruct (state b); congruence.
Qed.

Lemma open_gate_leaves_open (now : Z) (b b1 : breaker) :
  open_gate now b = inl b1 -> state b1 <> OPEN.
Proof.
  unfold open_gate, is_open.
  destruct (state b) eqn:Hs.
  - intros [= <-]. congruence.
  - destruct (last_failure_time b) as [t|]; [|discriminate].
    destruct (reset_timeout b <=? now - t); [|discriminate].
    intros [= <-]. cbn. discriminate.
  - intros [= <-]. congruence.
Qed.

Lemma half_open_gate_state (b b2 : breaker) :
  half_open_gate b = inl b2 -> state b2 = state b.
Proof.
  unfold half_open_gate.
  destruct (is_half_open b); [|intros [= <-]; reflexivity].
  destruct (half_open_max_requests b <=? half_open_request_count b);
    [discriminate|intros [= <-]; reflexivity].
Qed.

Lemma half_open_gate_keeps (b b2 : breaker) :
  half_open_gate b = inl b2 ->
  max_failures b2 = max_failures b /\
  reset_timeout b2 = reset_timeout b /\
  half_open_max_requests b2 = half_open_max_requests b /\
  failure_count b2 = failure_count b /\
  last_failure_time b2 = last_failure_time b.
Proof.
  unfold half_open_gate.
  destruct (is_half_open b); [|intros [= <-]; auto].
  destruct (half_open_max_requests b <=? half_open_request_count b);
    [discriminate|intros [= <-]; auto].
Qed.

Lemma open_gate_keeps (now : Z) (b b1 : breaker) :
  open_gate now b = inl b1 ->
  max_failures b1 = max_failures b /\
  reset_timeout b1 = reset_timeout b /\
  half_open_max_requests b1 = half_open_max_requests b /\
  failure_count b1 = failure_count b /\
  last_failure_time b1 = last_failure_time b.
Proof.
  unfold open_gate.
  destruct (is_open b); [|intros [= <-]; auto].
  destruct (last_failure_time b) as [t|] eqn:Ht; [|discriminate].
  destruct (reset_timeout b <=? now - t); [|discriminate].
  intros [= <-]. cbn. auto.
Qed.

(** A call that reaches [func] finds the breaker closed or half-open, with
    the configuration and failure accounting it had on entry. *)
Lemma admitted_facts (b b2 : breaker) (now : Z) :
  admitted b now = Some b2 ->
  state b2 <> OPEN /\
  max_failures b2 = max_failures b /\
  failure_count b2 = failure_count b /\
  last_failure_time b2 = last_failure_time b.
Proof.
  unfold admitted.
  destruct (open_gate now b) as [b1|e] eqn:Ho; [|discriminate].
  destruct (half_open_gate b1) as [b2'|e] eqn:Hh; [|discriminate].
  intros [= <-].
  pose proof (open_gate_leaves_open _ _ _ Ho) as Hs.
  pose proof (open_gate_keeps _ _ _ Ho) as (Hm & _ & _ & Hf & Hl).
  pose proof (half_open_gate_state _ _ Hh) as Hs'.
  pose proof (half_open_gate_keeps _ _ Hh) as (Hm' & _ & _ & Hf' & Hl').
  repeat split; congruence.
Qed.

Lemma call_admitted {R} (b b2 : breaker) (now later : Z) (f : behaviour R) :
  admitted b now = Some b2 ->
  call b now f later =
  Report (fst (settle f later b2)) (snd (settle f later b2)) true.
Proof.
  unfold admitted, call.
  destruct (open_gate now b) as [b1|e]; [|discriminate].
  destruct (half_open_gate b1) as [b2'|e]; [|discriminate].
  intros [= <-]. destruct (settle f later b2'); reflexivity.
Qed.

Lemma call_invoked_iff_admitted {R} (b : breaker) (now later : Z)
    (f : behaviour R) :
  invoked (call b now f later) = true <-> is_Some (admitted b now).
Proof.
  unfold admitted, call.
  destruct (open_gate now b) as [b1|e]; cbn.
  - destruct (half_open_gate b1) as [b2|e]; cbn.
    + destruct (settle f later b2); cbn. split; eauto.
    + split; [discriminate|intros [? [=]]].
  - split; [discriminate|intros [? [=]]].
Qed.

(** ** [record_failure] and [reset] field by field *)

Lemma record_failure_count (now : Z) (b : breaker) :
  failure_count (record_failure now b) = failure_count b + 1.
Proof.
  unfold record_failure, is_half_open; cbn.
  destruct (state b); cbn; try reflexivity;
    destruct (max_failures b <=? failure_count b + 1); reflexivity.
Qed.

Lemma record_failure_time (now : Z) (b : breaker) :
  last_failure_time (record_failure now b) = Some now.
Proof. reflexivity. Qed.

Lemma record_failure_half_open (now : Z) (b : breaker) :
  state b = HALF_OPEN -> state (record_failure now b) = OPEN.
Proof.
  intros Hs. unfold record_failure, is_half_open; cbn. rewrite Hs. reflexivity.
Qed.

Lemma record_failure_closed (now : Z) (b : breaker) :
  state b = CLOSED ->
  state (record_failure now b) =
  if max_failures b <=? failure_count b + 1 then OPEN else CLOSED.
Proof.
  intros Hs. unfold record_failure, is_half_open; cbn. rewrite Hs.
  destruct (max_failures b <=? failure_count b + 1); cbn; auto.
Qed.

Lemma record_failure_keeps (now : Z) (b : breaker) :
  max_failures (record_failure now b) = max_failures b /\
  reset_timeout (record_failure now b) = reset_timeout b /\
  half_open_max_requests (record_failure now b) = half_open_max_requests b /\
  half_open_request_count (record_failure now b) = half_open_request_count b.
Proof.
  unfold record_failure, is_half_open; cbn.
  destruct (state b); cbn; auto;
    destruct (max_failures b <=? failure_count b + 1); cbn; auto.
Qed.

(** ** What one call does *)

(** C3.  When the wrapped function raises an [Exception], the failure is
    recorded on the breaker as it stood at the invocation: [failure_count]
    grows by one and [last_failure_time] becomes the current reading in
    every case; from HALF-OPEN the state becomes OPEN whatever the count;
    otherwise it becomes OPEN exactly when the incremented count has reached
    [max_failures], and below the threshold the breaker stays CLOSED. *)
Theorem call_failure_recorded (R : Type) (b b2 : breaker) (now later : Z)
    (e : exception) :
  admitted b now = Some b2 ->
  is_Exception e = true ->
  let b' := after (call b now (Raises e : behaviour R) later) in
  b' = record_failure later b2 /\
  failure_count b' = failure_count b + 1 /\
  last_failure_time b' = Some later /\
  (state b2 = HALF_OPEN -> state b' = OPEN) /\
  (state b2 <> HALF_OPEN ->
     (state b' = OPEN <-> max_failures b <= failure_count b + 1) /\
     (failure_count b + 1 < max_failures b -> state b' = CLOSED)).
Proof.
  intros Ha He b'.
  assert (Hb : b' = record_failure later b2).
  { subst b'. rewrite (call_admitted _ _ _ _ _ Ha). cbn. now rewrite He. }
  destruct (admitted_facts _ _ _ Ha) as (Hno & Hm & Hf & _).
  rewrite Hb, record_failure_count, record_failure_time, Hf.
  split; [reflexivity|]. split; [reflexivity|]. split; [reflexivity|].
  split; [apply record_failure_half_open|].
  intros Hnh. destruct (state b2) eqn:Hs; try congruence.
  rewrite (record_failure_closed _ _ Hs), Hm, Hf.
  destruct (Z.leb_spec (max_failures b) (failure_count b + 1)).
  - split; [split; [lia|reflexivity]|lia].
  - split; [split; [discriminate|lia]|reflexivity].
Qed.

(** The third failure of the driver trips its breaker. *)
Lemma call_failure_recorded_witness :
  let b := run circuit_breaker [fails_at 0; fails_at 0] in
  let b' := after (call b 7 service_ko 9) in
  admitted b 7 = Some b /\
  is_Exception service_failed = true /\
  b' = record_failure 9 b /\
  failure_count b' = failure_count b + 1 /\
  last_failure_time b' = Some 9 /\
  (state b = HALF_OPEN -> state b' = OPEN) /\
  (state b <> HALF_OPEN ->
     (state b' = OPEN <-> max_failures b <= failure_count b + 1) /\
     (failure_count b + 1 < max_failures b -> state b' = CLOSED)).
Proof.
  intros b b'. split; [reflexivity|]. split; [reflexivity|].
  apply (call_failure_recorded string b b 7 9 service_failed);
    vm_compute; reflexivity.
Defined.

(** C4.  A call that finds the breaker OPEN less than [reset_timeout] after
    the last failure raises the circuit-open error, does not invoke the
    wrapped function, and leaves every attribute as it was. *)
Theorem call_blocked_while_open (R : Type) (b : breaker) (now t later : Z)
    (f : behaviour R) :
  state b = OPEN ->
  last_failure_time b = Some t ->
  now - t < reset_timeout b ->
  call b now f later = Report (Raised circuit_open_error) b false.
Proof.
  intros Hs Ht Hlt. unfold call, open_gate, is_open. rewrite Hs, Ht.
  destruct (Z.leb_spec (reset_timeout b) (now - t)); [lia|reflexivity].
Qed.

Lemma call_blocked_while_open_witness :
  state tripped = OPEN /\
  last_failure_time tripped = Some 0 /\
  2 - 0 < reset_timeout tripped /\
  call tripped 2 service_ok 2 = Report (Raised circuit_open_error) tripped false.
Proof.
  split; [reflexivity|]. split; [reflexivity|]. split; [reflexivity|].
  apply (call_blocked_while_open string tripped 2 0 2 service_ok);
    reflexivity.
Defined.

(** C6.  When the wrapped function returns, from CLOSED or from HALF-OPEN,
    the call returns that very result and the breaker is reset:
    [failure_count] 0, state CLOSED, [half_open_request_count] 0, with the
    configuration and [last_failure_time] untouched. *)
Theorem call_success_resets (R : Type) (b b2 : breaker) (now later : Z) (r : R) :
  admitted b now = Some b2 ->
  call b now (Returns r) later = Report (Returned r) (reset b2) true /\
  failure_count (reset b2) = 0 /\
  state (reset b2) = CLOSED /\
  half_open_request_count (reset b2) = 0 /\
  max_failures (reset b2) = max_failures b /\
  reset_timeout (reset b2) = reset_timeout b /\
  half_open_max_requests (reset b2) = half_open_max_requests b /\
  last_failure_time (reset b2) = last_failure_time b.
Proof.
  intros Ha. rewrite (call_admitted _ _ _ _ _ Ha). cbn.
  unfold admitted in Ha.
  destruct (open_gate now b) as [b1|] eqn:Ho; [|discriminate].
  destruct (half_open_gate b1) as [b2'|] eqn:Hh; [|discriminate].
  injection Ha as ->.
  destruct (open_gate_keeps _ _ _ Ho) as (? & ? & ? & ? & ?).
  destruct (half_open_gate_keeps _ _ Hh) as (? & ? & ? & ? & ?).
  repeat split; congruence.
Qed.

(** A trial call that succeeds three ticks after the breaker tripped. *)
Lemma call_success_resets_witness :
  let b2 := set_half_open_request_count 1 (set_state HALF_OPEN tripped) in
  admitted tripped 3 = Some b2 /\
  call tripped 3 service_ok 3 =
    Report (Returned "Service succeeded!"%string) (reset b2) true /\
  failure_count (reset b2) = 0 /\
  state (reset b2) = CLOSED /\
  half_open_request_count (reset b2) = 0 /\
  max_failures (reset b2) = max_failures tripped /\
  reset_timeout (reset b2) = reset_timeout tripped /\
  half_open_max_requests (reset b2) = half_open_max_requests tripped /\
  last_failure_time (reset b2) = last_failure_time tripped.
Proof.
  intros b2. split; [reflexivity|].
  apply (call_success_resets string tripped b2 3 3 "Service succeeded!"%string).
  reflexivity.
Defined.

(** A cap on trial requests that is not positive refuses the very call
    that ends the wait:
    three failures trip a breaker built with [half_open_max_requests = 0];
    the call made once the timeout has elapsed moves it to HALF-OPEN with a
    counter of 0, is refused by the admission check and never reaches the
    wrapped function. *)
Lemma call_after_timeout_refused_at_zero_cap :
  let b := run (fresh 3 3 0) [fails_at 0; fails_at 0; fails_at 0] in
  state b = OPEN /\
  last_failure_time b = Some 0 /\
  reset_timeout b <= 3 - 0 /\
  call b 3 service_ok 3 =
    Report (Raised half_open_limit_error) (Breaker 3 3 0 3 (Some 0) HALF_OPEN 0)
           false.
Proof.
  cbv zeta. split; [reflexivity|]. split; [reflexivity|].
  split; [vm_compute; discriminate|reflexivity].
Qed.

(** The same for a call that runs on its own from entry to exit.  With a
    positive [half_open_max_requests], a call that finds the breaker OPEN
    at least [reset_timeout] after the last failure moves it to HALF-OPEN
    with [half_open_request_count] 0, passes the admission check, which
    counts it as the first trial, and invokes the wrapped function within
    the same call. *)
Theorem call_after_timeout_tries (R : Type) (b : breaker) (now t later : Z)
    (f : behaviour R) :
  state b = OPEN ->
  last_failure_time b = Some t ->
  reset_timeout b <= now - t ->
  0 < half_open_max_requests b ->
  let b1 := set_half_open_request_count 0 (set_state HALF_OPEN b) in
  let b2 := set_half_open_request_count 1 (set_state HALF_OPEN b) in
  open_gate now b = inl b1 /\
  half_open_gate b1 = inl b2 /\
  admitted b now = Some b2 /\
  call b now f later =
    Report (fst (settle f later b2)) (snd (settle f later b2)) true.
Proof.
  intros Hs Ht Hge Hpos b1 b2.
  assert (Ho : open_gate now b = inl b1).
  { unfold open_gate, is_open. rewrite Hs, Ht.
    destruct (Z.leb_spec (reset_timeout b) (now - t)); [reflexivity|lia]. }
  assert (Hh : half_open_gate b1 = inl b2).
  { unfold half_open_gate, b1; cbn.
    destruct (Z.leb_spec (half_open_max_requests b) 0); [lia|reflexivity]. }
  assert (Ha : admitted b now = Some b2).
  { unfold admitted. now rewrite Ho, Hh. }
  split; [exact Ho|]. split; [exact Hh|]. split; [exact Ha|].
  apply call_admitted, Ha.
Qed.

Lemma call_after_timeout_tries_witness :
  let b1 := set_half_open_request_count 0 (set_state HALF_OPEN tripped) in
  let b2 := set_half_open_request_count 1 (set_state HALF_OPEN tripped) in
  state tripped = OPEN /\
  last_failure_time tripped = Some 0 /\
  reset_timeout tripped <= 3 - 0 /\
  0 < half_open_max_requests tripped /\
  open_gate 3 tripped = inl b1 /\
  half_open_gate b1 = inl b2 /\
  admitted tripped 3 = Some b2 /\
  call tripped 3 service_ko 4 =
    Report (fst (settle service_ko 4 b2)) (snd (settle service_ko 4 b2)) true.
Proof.
  intros b1 b2.
  split; [reflexivity|]. split; [reflexivity|].
  split; [vm_compute; discriminate|]. split; [reflexivity|].
  apply (call_after_timeout_tries string tripped 3 0 4 service_ko);
    [reflexivity|reflexivity|vm_compute; discriminate|reflexivity].
Defined.

(** ** Invariants of successive calls *)

Lemma call_keeps_config {R} (b : breaker) (now later : Z) (f : behaviour R) :
  max_failures (after (call b now f later)) = max_failures b /\
  reset_timeout (after (call b now f later)) = reset_timeout b /\
  half_open_max_requests (after (call b now f later)) = half_open_max_requests b.
Proof.
  unfold call.
  destruct (open_gate now b) as [b1|] eqn:Ho; [|cbn; auto].
  destruct (open_gate_keeps _ _ _ Ho) as (? & ? & ? & _).
  destruct (half_open_gate b1) as [b2|] eqn:Hh; [|cbn; auto].
  destruct (half_open_gate_keeps _ _ Hh) as (? & ? & ? & _).
  destruct f as [r|e]; unfold settle.
  - cbn. repeat split; congruence.
  - destruct (is_Exception e); cbn [after].
    + destruct (record_failure_keeps later b2) as (-> & -> & -> & _).
      repeat split; congruence.
    + repeat split; congruence.
Qed.

Lemma open_gate_bounded (now : Z) (b b1 : breaker) :
  0 <= half_open_max_requests b ->
  trials_bounded b -> open_gate now b = inl b1 -> trials_bounded b1.
Proof.
  unfold open_gate, is_open, trials_bounded. intros Hpos Hinv.
  destruct (state b) eqn:Hs; try (intros [= <-]; rewrite Hs; congruence).
  - destruct (last_failure_time b) as [t|]; [|discriminate].
    destruct (reset_timeout b <=? now - t); [|discriminate].
    intros [= <-] _. cbn. exact Hpos.
  - intros [= <-] _. apply Hinv. reflexivity.
Qed.

Lemma half_open_gate_bounded (b b2 : breaker) :
  trials_bounded b -> half_open_gate b = inl b2 -> trials_bounded b2.
Proof.
  unfold half_open_gate, is_half_open, trials_bounded. intros Hinv.
  destruct (state b) eqn:Hs; try (intros [= <-]; rewrite Hs; congruence).
  destruct (Z.leb_spec (half_open_max_requests b) (half_open_request_count b));
    [discriminate|].
  intros [= <-] _. cbn. specialize (Hinv eq_refl). lia.
Qed.

Lemma settle_bounded {R} (f : behaviour R) (later : Z) (b : breaker) :
  trials_bounded b -> trials_bounded (snd (settle f later b)).
Proof.
  unfold trials_bounded. intros Hinv. destruct f as [r|e]; cbn.
  - discriminate.
  - destruct (is_Exception e); cbn; [|exact Hinv].
    unfold record_failure, is_half_open; cbn.
    destruct (state b) eqn:Hs; cbn;
      try destruct (max_failures b <=? failure_count b + 1); cbn;
      rewrite ?Hs; discriminate.
Qed.

Lemma call_bounded {R} (b : breaker) (now later : Z) (f : behaviour R) :
  0 <= half_open_max_requests b ->
  trials_bounded b -> trials_bounded (after (call b now f later)).
Proof.
  intros Hpos Hinv. unfold call.
  destruct (open_gate now b) as [b1|] eqn:Ho; [|exact Hinv].
  pose proof (open_gate_bounded _ _ _ Hpos Hinv Ho) as H1.
  destruct (half_open_gate b1) as [b2|] eqn:Hh; [|exact H1].
  pose proof (half_open_gate_bounded _ _ H1 Hh) as H2.
  pose proof (settle_bounded f later b2 H2) as H3.
  destruct (settle f later b2); exact H3.
Qed.

Lemma run_bounded {R} (qs : list (request R)) (b : breaker) :
  0 <= half_open_max_requests b ->
  trials_bounded b -> trials_bounded (run b qs).
Proof.
  revert b. induction qs as [|q qs IH]; intros b Hpos Hinv; [exact Hinv|].
  cbn. apply IH.
  - unfold serve.
    destruct (call_keeps_config b (entry_time q) (failure_time q) (func q))
      as (_ & _ & ->). exact Hpos.
  - apply call_bounded; assumption.
Qed.

Lemma call_timed {R} (b : breaker) (now later : Z) (f : behaviour R) :
  open_is_timed b -> open_is_timed (after (call b now f later)).
Proof.
  intros Hinv. unfold call.
  destruct (open_gate now b) as [b1|] eqn:Ho; [|exact Hinv].
  pose proof (open_gate_leaves_open _ _ _ Ho) as H1.
  destruct (half_open_gate b1) as [b2|] eqn:Hh; [|intros ?; contradiction].
  pose proof (half_open_gate_state _ _ Hh) as H2.
  destruct f as [r|e]; cbn.
  - discriminate.
  - destruct (is_Exception e); cbn.
    + intros _. rewrite record_failure_time. eauto.
    + intros ?. congruence.
Qed.

Lemma run_timed {R} (qs : list (request R)) (b : breaker) :
  open_is_timed b -> open_is_timed (run b qs).
Proof.
  revert b. induction qs as [|q qs IH]; intros b Hinv; [exact Hinv|].
  cbn. apply IH, call_timed, Hinv.
Qed.

(** C7, as stated, fails for a negative cap, which the constructor accepts:
    one failure trips a breaker built with [half_open_max_requests = -1];
    the next call after the timeout moves it to HALF-OPEN with a counter of
    0, above the cap, and is refused there. *)
Lemma half_open_count_above_negative_cap :
  let b := run (fresh 1 3 (-1)) [fails_at 0; succeeds_at 5] in
  state b = HALF_OPEN /\
  half_open_max_requests b < half_open_request_count b.
Proof. cbv zeta. split; reflexivity. Qed.

(** C7 (amended).  For a breaker built with [half_open_max_requests >= 0],
    after every sequence of calls from the initial state a HALF-OPEN
    breaker has [half_open_request_count <= half_open_max_requests], also
    while the wrapped function of a further call runs.  A call that
    reaches the admission check in HALF-OPEN invokes the wrapped function
    exactly when the counter is below the cap at the check; otherwise it
    raises the trial-limit error without invoking it. *)
Theorem half_open_trials_bounded (R : Type) (mf rt hm : Z)
    (qs : list (request R)) :
  0 <= hm ->
  let b := run (fresh mf rt hm) qs in
  trials_bounded b /\
  (forall now b2, admitted b now = Some b2 -> trials_bounded b2) /\
  (forall now later (f : behaviour R) b1,
      open_gate now b = inl b1 ->
      state b1 = HALF_OPEN ->
      (invoked (call b now f later) = true <->
       half_open_request_count b1 < half_open_max_requests b1) /\
      (half_open_max_requests b1 <= half_open_request_count b1 ->
       call b now f later = Report (Raised half_open_limit_error) b1 false)).
Proof.
  intros Hpos b.
  assert (Hinv : trials_bounded b).
  { apply run_bounded; [exact Hpos|]. intros [=]. }
  assert (Hcap : 0 <= half_open_max_requests b).
  { clear Hinv. subst b.
    assert (G : forall (l : list (request R)) b0,
               half_open_max_requests (run b0 l) = half_open_max_requests b0).
    { induction l as [|q l IH]; intros b0; [reflexivity|]. cbn. rewrite IH.
      apply call_keeps_config. }
    rewrite G. exact Hpos. }
  split; [exact Hinv|]. split.
  - intros now b2. unfold admitted.
    destruct (open_gate now b) as [b1|] eqn:Ho; [|discriminate].
    destruct (half_open_gate b1) as [b2'|] eqn:Hh; [|discriminate].
    intros [= <-]. eapply half_open_gate_bounded; [|exact Hh].
    eapply open_gate_bounded; eassumption.
  - intros now later f b1 Ho Hs. unfold call. rewrite Ho.
    unfold half_open_gate, is_half_open. rewrite Hs.
    destruct (Z.leb_spec (half_open_max_requests b1) (half_open_request_count b1)).
    + split; [|reflexivity]. cbn. split; [discriminate|lia].
    + split; [|lia]. destruct (settle f later _). cbn. split; auto.
Qed.

(** After a first trial that dies of a [KeyboardInterrupt], the driver's
    breaker is HALF-OPEN with one trial counted, and a second is let in. *)
Lemma half_open_trials_bounded_witness :
  let b := run (fresh 3 3 2)
               [fails_at 0; fails_at 0; fails_at 0;
                Request 3 (Raises (Exc KeyboardInterrupt "interrupted")) 3] in
  0 <= 2 /\
  trials_bounded b /\
  (forall now b2, admitted b now = Some b2 -> trials_bounded b2) /\
  (forall now later (f : behaviour string) b1,
      open_gate now b = inl b1 ->
      state b1 = HALF_OPEN ->
      (invoked (call b now f later) = true <->
       half_open_request_count b1 < half_open_max_requests b1) /\
      (half_open_max_requests b1 <= half_open_request_count b1 ->
       call b now f later = Report (Raised half_open_limit_error) b1 false)).
Proof.
  intros b. split; [lia|].
  apply (half_open_trials_bounded string 3 3 2
           [fails_at 0; fails_at 0; fails_at 0;
            Request 3 (Raises (Exc KeyboardInterrupt "interrupted")) 3]).
  lia.
Defined.

(** C10.  Whatever calls have been made on a freshly initialised breaker,
    if it is OPEN then [last_failure_time] holds a reading, and the
    subtraction of line 42 never meets [None]. *)
Theorem open_has_failure_time (R : Type) (mf rt hm : Z)
    (qs : list (request R)) :
  let b := run (fresh mf rt hm) qs in
  state b = OPEN ->
  (exists t, last_failure_time b = Some t) /\
  (forall now, open_gate now b <> inr none_operand_error).
Proof.
  intros b Hs.
  assert (Hinv : open_is_timed b).
  { apply run_timed. intros [=]. }
  destruct (Hinv Hs) as [t Ht]. split; [eauto|].
  intros now. unfold open_gate, is_open. rewrite Hs, Ht.
  destruct (reset_timeout b <=? now - t); discriminate.
Qed.

Lemma open_has_failure_time_witness :
  state tripped = OPEN /\
  (exists t, last_failure_time tripped = Some t) /\
  (forall now, open_gate now tripped <> inr none_operand_error).
Proof.
  split; [reflexivity|].
  apply (open_has_failure_time string 3 3 2 [fails_at 0; fails_at 0; fails_at 0]).
  reflexivity.
Defined.

(** ** Errors seen by the caller *)

Lemma blocked_ending {R} (b : breaker) (now later : Z) (f : behaviour R) :
  open_is_timed b ->
  invoked (call b now f later) = false ->
  ending (call b now f later) = Raised circuit_open_error \/
  ending (call b now f later) = Raised half_open_limit_error.
Proof.
  intros Hinv. unfold call, open_gate, is_open.
  destruct (state b) eqn:Hs.
  - unfold half_open_gate, is_half_open. rewrite Hs.
    destruct (settle f later b). discriminate.
  - destruct (Hinv Hs) as [t ->].
    destruct (reset_timeout b <=? now - t); [|cbn; auto].
    unfold half_open_gate, is_half_open; cbn.
    destruct (half_open_max_requests b <=? 0); [cbn; auto|].
    destruct (settle f later _). discriminate.
  - unfold half_open_gate, is_half_open. rewrite Hs.
    destruct (half_open_max_requests b <=? half_open_request_count b);
      [cbn; auto|].
    destruct (settle f later _). discriminate.
Qed.

(** An exception outside [Exception] passes through [call] without being
    recorded. *)
Lemma call_base_exception_unrecorded {R} (b b2 : breaker) (now later : Z)
    (e : exception) :
  admitted b now = Some b2 ->
  is_Exception e = false ->
  call b now (Raises e : behaviour R) later = Report (Raised e) b2 true.
Proof.
  intros Ha He. rewrite (call_admitted _ _ _ _ _ Ha). cbn. now rewrite He.
Qed.

(** C2, as stated, fails on two counts.  A wrapped function that raises the
    very [RuntimeError] of line 48 gives the caller the same exception as a
    blocked call does, although it was invoked; and a [KeyboardInterrupt]
    raised by the wrapped function is not recorded at all. *)
Lemma operation_failure_taken_for_block :
  let failed :=
    call circuit_breaker 0 (Raises circuit_open_error : behaviour string) 0 in
  let blocked := call tripped 1 service_ok 1 in
  let interrupted :=
    call circuit_breaker 0
         (Raises (Exc KeyboardInterrupt "interrupted") : behaviour string) 0 in
  (invoked failed = true /\ invoked blocked = false /\
   ending failed = ending blocked) /\
  (invoked interrupted = true /\ after interrupted = circuit_breaker).
Proof. cbv zeta. repeat split. Qed.

(** C2 (amended).  When the wrapped function raises an [Exception], the
    failure is recorded.  If formatting the exception for the log message
    of line 64 succeeds, the caller gets that same exception, as it was
    raised and without a wrapper; if formatting it raises, the caller gets
    the exception so raised.  What the caller gets differs from what any
    blocked call raises unless it is itself one of the two [RuntimeError]s
    of lines 48 and 53. *)
Theorem call_failure_reraised (R : Type) (b b2 : breaker) (now later : Z)
    (e : exception) :
  admitted b now = Some b2 ->
  is_Exception e = true ->
  (forall text, str e = Returned text ->
     call b now (Raises e : behaviour R) later =
       Report (Raised e) (record_failure later b2) true) /\
  (forall e', str e = Raised e' ->
     call b now (Raises e : behaviour R) later =
       Report (Raised e') (record_failure later b2) true) /\
  (forall x,
     ending (call b now (Raises e : behaviour R) later) = Raised x ->
     x <> circuit_open_error -> x <> half_open_limit_error ->
     forall mf rt hm (qs : list (request R)) now' later' (f' : behaviour R),
       invoked (call (run (fresh mf rt hm) qs) now' f' later') = false ->
       ending (call (run (fresh mf rt hm) qs) now' f' later') <> Raised x).
Proof.
  intros Ha He.
  assert (Hc : call b now (Raises e : behaviour R) later =
               Report (Raised (reraised e)) (record_failure later b2) true).
  { rewrite (call_admitted _ _ _ _ _ Ha). cbn. now rewrite He. }
  split; [|split].
  - intros text Hs. rewrite Hc. unfold reraised. now rewrite Hs.
  - intros e' Hs. rewrite Hc. unfold reraised. now rewrite Hs.
  - intros x _ H1 H2 mf rt hm qs now' later' f' Hb.
    assert (Hinv : open_is_timed (run (fresh mf rt hm) qs)).
    { apply run_timed. intros [=]. }
    destruct (blocked_ending _ now' later' f' Hinv Hb) as [-> | ->];
      congruence.
Qed.

Lemma call_failure_reraised_witness :
  admitted circuit_breaker 0 = Some circuit_breaker /\
  is_Exception service_failed = true /\
  (forall text, str service_failed = Returned text ->
     call circuit_breaker 0 service_ko 1 =
       Report (Raised service_failed) (record_failure 1 circuit_breaker) true) /\
  (forall e', str service_failed = Raised e' ->
     call circuit_breaker 0 service_ko 1 =
       Report (Raised e') (record_failure 1 circuit_breaker) true) /\
  (forall x,
     ending (call circuit_breaker 0 service_ko 1) = Raised x ->
     x <> circuit_open_error -> x <> half_open_limit_error ->
     forall mf rt hm (qs : list (request string)) now' later'
            (f' : behaviour string),
       invoked (call (run (fresh mf rt hm) qs) now' f' later') = false ->
       ending (call (run (fresh mf rt hm) qs) now' f' later') <> Raised x).
Proof.
  split; [reflexivity|]. split; [reflexivity|].
  apply (call_failure_reraised string circuit_breaker circuit_breaker 0 1
           service_failed); reflexivity.
Defined.

(** An exception whose [__str__] raises: the failure is counted, and the
    caller gets what [__str__] raised. *)
Example unprintable_failure :
  call circuit_breaker 0
       (Raises (Unprintable (OtherException "Bad") (Exc ValueError "no text"))
        : behaviour string) 1 =
  Report (Raised (Exc ValueError "no text")) (Breaker 3 3 2 1 (Some 1) CLOSED 0)
         true.
Proof. reflexivity. Qed.

(** ** Construction *)

Lemma construct_fresh (mf rt hm : Z) (s : store) :
  _instance s = None ->
  construct mf rt hm s =
    (length (heap s),
     Store (heap s ++ [Ready (fresh mf rt hm)]) (Some (length (heap s)))).
Proof.
  intros Hn. unfold construct, __new__, __init__. rewrite Hn. cbn.
  rewrite list_lookup_middle by reflexivity.
  rewrite insert_app_r_alt by lia.
  rewrite Nat.sub_diag. reflexivity.
Qed.

Lemma construct_existing (mf rt hm : Z) (s : store) (self : nat) (b : breaker) :
  _instance s = Some self ->
  heap s !! self = Some (Ready b) ->
  construct mf rt hm s = (self, s).
Proof.
  intros Hi Hl. unfold construct, __new__, __init__. rewrite Hi, Hl.
  reflexivity.
Qed.

Lemma call_on_keeps_instance {R} (ref : nat) (now later : Z) (f : behaviour R)
    (s : store) :
  has_instance s -> has_instance (snd (call_on ref now f later s)).
Proof.
  intros (self & b & Hi & Hl). unfold call_on.
  destruct (heap s !! ref) as [[|b0]|] eqn:Hr; cbn [snd];
    try (exists self, b; split; assumption).
  destruct (decide (ref = self)) as [->|Hne].
  - exists self, (after (call b0 now f later)). split; [exact Hi|].
    cbn [heap]. apply list_lookup_insert_eq. exact (lookup_lt_Some _ _ _ Hl).
  - exists self, b. split; [exact Hi|].
    cbn [heap]. rewrite list_lookup_insert_ne by exact Hne. exact Hl.
Qed.

Lemma perform_keeps_instance {R} (a : action R) (s : store) :
  has_instance s ->
  has_instance (perform s a) /\ _instance (perform s a) = _instance s.
Proof.
  intros Hs. destruct a as [mf rt hm|ref now f later]; cbn.
  - destruct Hs as (self & b & Hi & Hl).
    rewrite (construct_existing mf rt hm s self b Hi Hl). cbn.
    split; [exists self, b; auto|reflexivity].
  - split; [apply call_on_keeps_instance, Hs|].
    unfold call_on. destruct (heap s !! ref) as [[|b0]|]; reflexivity.
Qed.

Lemma play_keeps_instance {R} (acts : list (action R)) (s : store) :
  has_instance s ->
  has_instance (play s acts) /\ _instance (play s acts) = _instance s.
Proof.
  revert s. induction acts as [|a acts IH]; intros s Hs; [auto|].
  cbn. destruct (perform_keeps_instance a s Hs) as [H1 H2].
  destruct (IH _ H1) as [H3 H4]. split; [exact H3|congruence].
Qed.

(** C1, as stated, fails: the constructor checks nothing.  With a bound
    that is zero or negative it still returns an instance, initialised with
    the values it was given. *)
Lemma construct_accepts_nonpositive_bounds :
  construct 0 3 2 empty_store =
    (0%nat, Store [Ready (Breaker 0 3 2 0 None CLOSED 0)] (Some 0%nat)) /\
  construct 3 0 2 empty_store =
    (0%nat, Store [Ready (Breaker 3 0 2 0 None CLOSED 0)] (Some 0%nat)) /\
  construct 3 3 (-1) empty_store =
    (0%nat, Store [Ready (Breaker 3 3 (-1) 0 None CLOSED 0)] (Some 0%nat)).
Proof. repeat split. Qed.

(** C1 (amended).  Construction never fails and validates nothing: when the
    class holds no instance yet, [CircuitBreaker(mf, rt, hm)] allocates one
    and initialises it with the three values as given, positive or not, no
    failure counted, no failure time, state CLOSED and no trial counted. *)
Theorem construct_never_rejects (mf rt hm : Z) (s : store) :
  _instance s = None ->
  let (self, s') := construct mf rt hm s in
  _instance s' = Some self /\
  heap s' !! self = Some (Ready (Breaker mf rt hm 0 None CLOSED 0)).
Proof.
  intros Hn. rewrite (construct_fresh mf rt hm s Hn). cbn.
  split; [reflexivity|]. apply list_lookup_middle. reflexivity.
Qed.

Lemma construct_never_rejects_witness :
  _instance empty_store = None /\
  let (self, s') := construct (-4) 0 0 empty_store in
  _instance s' = Some self /\
  heap s' !! self = Some (Ready (Breaker (-4) 0 0 0 None CLOSED 0)).
Proof.
  split; [reflexivity|].
  apply (construct_never_rejects (-4) 0 0 empty_store). reflexivity.
Defined.

(** C9.  Once an instance has been constructed, and whatever the program
    has done with it since, constructing again with any arguments returns
    the reference to that same instance and changes nothing in the store:
    the new arguments are dropped. *)
Theorem construct_again_returns_instance (R : Type) (mf rt hm mf' rt' hm' : Z)
    (acts : list (action R)) :
  let first := construct mf rt hm empty_store in
  let s := play (snd first) acts in
  construct mf' rt' hm' s = (fst first, s).
Proof.
  intros first s.
  assert (Hf : first =
               (0%nat, Store [Ready (fresh mf rt hm)] (Some 0%nat))).
  { reflexivity. }
  assert (H0 : has_instance (snd first)).
  { rewrite Hf. exists 0%nat, (fresh mf rt hm). auto. }
  destruct (play_keeps_instance acts _ H0) as [(self & b & Hi & Hl) Hsame].
  fold s in Hi, Hl, Hsame.
  rewrite (construct_existing mf' rt' hm' s self b Hi Hl).
  f_equal. rewrite Hf in Hsame |- *. cbn in *. congruence.
Qed.

(** ** Threads *)

(** A thread left alone goes through [call]: the step semantics and the
    method agree on the breaker left, on how the call ends and on whether
    the wrapped function was invoked. *)
Lemma drive_is_call {R} (b : breaker) (now later : Z) (f : behaviour R) :
  Interleaving.drive 6 now later b (Interleaving.Thread Interleaving.L40 f) false =
  (after (call b now f later),
   Interleaving.Thread (Interleaving.Done (ending (call b now f later))) f,
   invoked (call b now f later)).
Proof.
  unfold call. cbn.
  destruct (open_gate now b) as [b1|e0]; cbn; [|reflexivity].
  unfold half_open_gate.
  destruct (is_half_open b1); cbn.
  - destruct (half_open_max_requests b1 <=? half_open_request_count b1); cbn;
      [reflexivity|].
    destruct f as [r|e]; cbn; [reflexivity|].
    destruct (is_Exception e); reflexivity.
  - destruct f as [r|e]; cbn; [reflexivity|].
    destruct (is_Exception e); reflexivity.
Qed.

(** C8.  Lines 50-54 run after the lock has been released.  Five threads
    enter [call] on the tripped breaker of the driver (cap of 2 trials)
    when the timeout has elapsed and advance in lockstep: each passes the
    test of line 51 before any has executed line 54.  All five are let in:
    the wrapped function is invoked five times, no call is refused, and the
    breaker is HALF-OPEN with five trials counted. *)
Theorem lockstep_trials_exceed_cap :
  Interleaving.exec lockstep_entry (Interleaving.launch tripped 5 service_ok) =
  Some (Interleaving.System
          (Breaker 3 3 2 3 (Some 0) HALF_OPEN 5)
          (replicate 5 (Interleaving.Thread
                          (Interleaving.L58 "Service succeeded!"%string)
                          service_ok))
          5 0).
Proof. vm_compute. reflexivity. Qed.

(** Under any schedule the shared breaker leaves CLOSED only at the failure
    threshold, so a failure recorded by one thread after another thread has
    opened the circuit still opens it exactly at the threshold. *)
Lemma advance_threshold {R} (now : Z) (b b' : breaker)
    (th th' : Interleaving.thread R) (ev : Interleaving.event) :
  threshold_reached b ->
  Interleaving.advance now b th = Some (b', th', ev) ->
  threshold_reached b'.
Proof.
  unfold threshold_reached, Interleaving.advance. intros Hinv.
  destruct (Interleaving.at_line th).
  - destruct (open_gate now b) as [b1|e] eqn:Ho; intros [= <- _ _]; [|exact Hinv].
    destruct (open_gate_keeps _ _ _ Ho) as (-> & _ & _ & -> & _).
    intros H1. apply Hinv. intros Hc. apply H1.
    rewrite open_gate_not_open in Ho by congruence.
    injection Ho as <-. exact Hc.
  - destruct (is_half_open b); intros [= <- _ _]; exact Hinv.
  - destruct (half_open_max_requests b <=? half_open_request_count b);
      intros [= <- _ _]; exact Hinv.
  - intros [= <- _ _]. exact Hinv.
  - destruct (Interleaving.does th) as [r|e];
      [|destruct (is_Exception e)]; intros [= <- _ _]; exact Hinv.
  - intros [= <- _ _]. intros Hc. cbn in Hc. congruence.
  - intros [= <- _ _]. rewrite record_failure_count.
    destruct (record_failure_keeps now b) as (-> & _).
    destruct (state b) eqn:Hs.
    + rewrite (record_failure_closed _ _ Hs).
      destruct (Z.leb_spec (max_failures b) (failure_count b + 1));
        [intros _; lia|congruence].
    + intros _. assert (max_failures b <= failure_count b) by (apply Hinv; discriminate). lia.
    + intros _. assert (max_failures b <= failure_count b) by (apply Hinv; discriminate). lia.
  - discriminate.
Qed.

Lemma exec_threshold {R} (sch : list (nat * Z)) (s s' : Interleaving.system R) :
  threshold_reached (Interleaving.shared s) ->
  Interleaving.exec sch s = Some s' ->
  threshold_reached (Interleaving.shared s').
Proof.
  revert s. induction sch as [|[tid now] sch IH]; intros s Hinv; cbn.
  - intros [= <-]. exact Hinv.
  - unfold Interleaving.step.
    destruct (Interleaving.threads s !! tid) as [th|]; [|discriminate].
    destruct (Interleaving.advance now (Interleaving.shared s) th)
      as [[[b th'] ev]|] eqn:Ha; [|discriminate].
    apply IH. pose proof (advance_threshold _ _ _ _ _ _ Hinv Ha) as Hb.
    destruct ev; exact Hb.
Qed.

Lemma record_failure_at_threshold (now : Z) (b : breaker) :
  threshold_reached b ->
  state b <> HALF_OPEN ->
  (state (record_failure now b) = OPEN <->
   max_failures b <= failure_count b + 1).
Proof.
  intros Hinv Hnh. destruct (state b) eqn:Hs; [| |congruence].
  - rewrite (record_failure_closed _ _ Hs).
    destruct (Z.leb_spec (max_failures b) (failure_count b + 1));
      split; try lia; try reflexivity; discriminate.
  - assert (max_failures b <= failure_count b) by (apply Hinv; congruence).
    unfold record_failure, is_half_open; cbn. rewrite Hs.
    destruct (max_failures b <=? failure_count b + 1); cbn; rewrite ?Hs;
      split; try lia; reflexivity.
Qed.

(** ** The driver *)

(** What the requests of the driver get: two results, three failures of the
    service, a blocked call, and after the pause a trial that closes the
    circuit again. *)
Example driver_transcript :
  transcript circuit_breaker driver_requests =
  [(Returned "Service succeeded!"%string, true);
   (Returned "Service succeeded!"%string, true);
   (Raised service_failed, true);
   (Raised service_failed, true);
   (Raised service_failed, true);
   (Raised circuit_open_error, false);
   (Returned "Service succeeded!"%string, true);
   (Raised service_failed, true);
   (Raised service_failed, true);
   (Returned "Service succeeded!"%string, true);
   (Returned "Service succeeded!"%string, true)].
Proof. reflexivity. Qed.

(** * Further properties of the code *)

(** ** Runs of like requests *)

Lemma call_closed {R} (b : breaker) (now later : Z) (f : behaviour R) :
  state b = CLOSED ->
  call b now f later =
  Report (fst (settle f later b)) (snd (settle f later b)) true.
Proof.
  intros Hs. apply call_admitted. unfold admitted.
  rewrite open_gate_not_open by congruence.
  unfold half_open_gate, is_half_open. now rewrite Hs.
Qed.

Lemma settle_recorded {R} (f : behaviour R) (later : Z) (b : breaker) :
  recorded f = true -> snd (settle f later b) = record_failure later b.
Proof.
  destruct f as [r|e]; cbn; [discriminate|]. now intros ->.
Qed.

(** Failures in a row, counted from a CLOSED breaker below its threshold:
    each call reaches the wrapped function and adds one to
    [failure_count]; the breaker stays CLOSED as long as the count is below
    [max_failures] and is OPEN at the call that reaches it. *)
Theorem consecutive_failures_trip (R : Type) (qs : list (request R))
    (b : breaker) :
  state b = CLOSED ->
  failure_count b < max_failures b ->
  Forall (fun q => fails q = true) qs ->
  failure_count b + Z.of_nat (length qs) <= max_failures b ->
  failure_count (run b qs) = failure_count b + Z.of_nat (length qs) /\
  state (run b qs) =
    (if failure_count b + Z.of_nat (length qs) <? max_failures b
     then CLOSED else OPEN) /\
  Forall (fun x => x.2 = true) (transcript b qs).
Proof.
  revert b. induction qs as [|q qs IH]; intros b Hs Hlt Hall Hle.
  - cbn. rewrite Z.add_0_r.
    destruct (Z.ltb_spec (failure_count b) (max_failures b)); [auto|lia].
  - apply Forall_cons in Hall as [Hq Hall].
    cbn [run transcript length]. unfold serve.
    rewrite (call_closed _ _ _ _ Hs). cbn [after invoked ending].
    rewrite (settle_recorded _ _ _ Hq).
    set (b1 := record_failure (failure_time q) b).
    assert (Hc : failure_count b1 = failure_count b + 1)
      by apply record_failure_count.
    assert (Hm : max_failures b1 = max_failures b)
      by apply record_failure_keeps.
    assert (Hs1 : state b1 =
                  if max_failures b <=? failure_count b + 1 then OPEN else CLOSED)
      by (apply record_failure_closed, Hs).
    destruct qs as [|q' qs'].
    + cbn [run transcript length] in *. fold b1.
      change (Z.of_nat 1) with 1 in *. rewrite Hc, Hs1. split; [lia|]. split.
      * destruct (Z.leb_spec (max_failures b) (failure_count b + 1)),
          (Z.ltb_spec (failure_count b + 1) (max_failures b));
          try reflexivity; lia.
      * repeat constructor.
    + assert (Hlen : Z.of_nat (length (q :: q' :: qs')) =
                     1 + Z.of_nat (length (q' :: qs')))
        by (cbn [length]; lia).
      rewrite Hlen in *.
      assert (Hpos : 0 < Z.of_nat (length (q' :: qs'))) by (cbn [length]; lia).
      assert (Hs1' : state b1 = CLOSED).
      { rewrite Hs1.
        destruct (Z.leb_spec (max_failures b) (failure_count b + 1));
          [lia|reflexivity]. }
      destruct (IH b1 Hs1') as (H1 & H2 & H3); [lia|exact Hall|lia|].
      split; [lia|]. split.
      * rewrite H2, Hc, Hm, Nat2Z.inj_succ.
        replace (failure_count b + Z.succ (Z.of_nat (length (q' :: qs'))))
          with (failure_count b + 1 + Z.of_nat (length (q' :: qs')))
          by lia.
        reflexivity.
      * constructor; [reflexivity|exact H3].
Qed.

Lemma consecutive_failures_trip_witness :
  let qs := [fails_at 0; fails_at 1; fails_at 2] in
  state circuit_breaker = CLOSED /\
  failure_count circuit_breaker < max_failures circuit_breaker /\
  Forall (fun q => fails q = true) qs /\
  failure_count circuit_breaker + Z.of_nat (length qs)
    <= max_failures circuit_breaker /\
  failure_count (run circuit_breaker qs) =
    failure_count circuit_breaker + Z.of_nat (length qs) /\
  state (run circuit_breaker qs) =
    (if failure_count circuit_breaker + Z.of_nat (length qs)
        <? max_failures circuit_breaker
     then CLOSED else OPEN) /\
  Forall (fun x => x.2 = true) (transcript circuit_breaker qs).
Proof.
  intros qs.
  assert (Hall : Forall (fun q : request string => fails q = true) qs)
    by (repeat constructor).
  split; [reflexivity|]. split; [reflexivity|]. split; [exact Hall|].
  split; [vm_compute; discriminate|].
  apply (consecutive_failures_trip string qs circuit_breaker);
    [reflexivity|reflexivity|exact Hall|vm_compute; discriminate].
Defined.

(** Successes in a row on a CLOSED breaker: every call reaches the wrapped
    function, and after the first the breaker is the reset one and no
    further success changes it. *)
Theorem successes_keep_closed (R : Type) (q : request R)
    (qs : list (request R)) (b : breaker) :
  state b = CLOSED ->
  Forall (fun q => succeeds q = true) (q :: qs) ->
  run b (q :: qs) = reset b /\
  Forall (fun x => x.2 = true) (transcript b (q :: qs)).
Proof.
  assert (G : forall (l : list (request R)) b0,
             state b0 = CLOSED ->
             Forall (fun q => succeeds q = true) l ->
             run b0 l = (match l with [] => b0 | _ => reset b0 end) /\
             Forall (fun x => x.2 = true) (transcript b0 l)).
  { induction l as [|q0 l IH]; intros b0 Hs Hall; [split; [reflexivity|constructor]|].
    apply Forall_cons in Hall as [Hq Hall].
    cbn [run transcript]. unfold serve.
    rewrite (call_closed _ _ _ _ Hs). cbn [after invoked ending].
    unfold succeeds in Hq. destruct (func q0) as [r|e]; [|discriminate].
    cbn [settle snd].
    destruct (IH (reset b0) eq_refl Hall) as [H1 H2].
    split; [|constructor; [reflexivity|exact H2]].
    rewrite H1. destruct l; reflexivity. }
  intros Hs Hall. exact (G (q :: qs) b Hs Hall).
Qed.

Lemma successes_keep_closed_witness :
  let b := run circuit_breaker [fails_at 0; fails_at 1] in
  state b = CLOSED /\
  Forall (fun q => succeeds q = true) [succeeds_at 2; succeeds_at 3] /\
  run b [succeeds_at 2; succeeds_at 3] = reset b /\
  Forall (fun x => x.2 = true) (transcript b [succeeds_at 2; succeeds_at 3]).
Proof.
  intros b.
  assert (Hall : Forall (fun q : request string => succeeds q = true)
                        [succeeds_at 2; succeeds_at 3])
    by (repeat constructor).
  split; [reflexivity|]. split; [exact Hall|].
  apply (successes_keep_closed string (succeeds_at 2) [succeeds_at 3] b);
    [reflexivity|exact Hall].
Defined.

Lemma call_open_early {R} (b : breaker) (now t later : Z) (f : behaviour R) :
  state b = OPEN ->
  last_failure_time b = Some t ->
  now - t < reset_timeout b ->
  call b now f later = Report (Raised circuit_open_error) b false.
Proof.
  intros Hs Ht Hlt. unfold call, open_gate, is_open. rewrite Hs, Ht.
  destruct (Z.leb_spec (reset_timeout b) (now - t)); [lia|reflexivity].
Qed.

(** However many calls arrive while the breaker is OPEN and the timeout
    has not elapsed, each is turned away with the circuit-open error, none
    reaches the wrapped function, and the breaker stays exactly as it was:
    blocked calls do not push the retry time back. *)
Theorem open_blocks_all (R : Type) (qs : list (request R)) (b : breaker)
    (t : Z) :
  state b = OPEN ->
  last_failure_time b = Some t ->
  Forall (fun q => entry_time q - t < reset_timeout b) qs ->
  run b qs = b /\
  transcript b qs = (fun _ => (Raised circuit_open_error, false)) <$> qs.
Proof.
  intros Hs Ht. induction qs as [|q qs IH]; intros Hall; [auto|].
  apply Forall_cons in Hall as [Hq Hall].
  cbn [run transcript fmap list_fmap]. unfold serve.
  rewrite (call_open_early b (entry_time q) t _ _ Hs Ht Hq).
  cbn [after ending invoked]. destruct (IH Hall) as [-> ->]. auto.
Qed.

Lemma open_blocks_all_witness :
  let qs := [succeeds_at 1; fails_at 2; succeeds_at 2] in
  state tripped = OPEN /\
  last_failure_time tripped = Some 0 /\
  Forall (fun q => entry_time q - 0 < reset_timeout tripped) qs /\
  run tripped qs = tripped /\
  transcript tripped qs = (fun _ => (Raised circuit_open_error, false)) <$> qs.
Proof.
  intros qs.
  assert (Hall : Forall (fun q : request string =>
                           entry_time q - 0 < reset_timeout tripped) qs)
    by (repeat constructor).
  split; [reflexivity|]. split; [reflexivity|]. split; [exact Hall|].
  apply (open_blocks_all string qs tripped 0); [reflexivity|reflexivity|exact Hall].
Defined.

Lemma run_saturated {R} (qs : list (request R)) (b : breaker) :
  state b = HALF_OPEN ->
  half_open_max_requests b <= half_open_request_count b ->
  run b qs = b /\
  transcript b qs = (fun _ => (Raised half_open_limit_error, false)) <$> qs.
Proof.
  intros Hs Hsat.
  assert (Hc : forall now later (f : behaviour R),
             call b now f later = Report (Raised half_open_limit_error) b false).
  { intros now later f. unfold call.
    rewrite open_gate_not_open by congruence.
    unfold half_open_gate, is_half_open. rewrite Hs.
    destruct (Z.leb_spec (half_open_max_requests b) (half_open_request_count b));
      [reflexivity|lia]. }
  induction qs as [|q qs [IH1 IH2]]; [auto|].
  cbn [run transcript fmap list_fmap]. unfold serve. rewrite Hc.
  cbn [after ending invoked]. rewrite IH1, IH2. auto.
Qed.

(** A HALF-OPEN breaker whose trial counter has reached the cap stays that
    way under calls made one after the other: whatever the clock shows,
    every call is refused with the trial-limit error, the wrapped function
    is never reached, and nothing changes.  Only a call already past the
    admission check could still move the breaker. *)
Theorem saturated_half_open_is_stuck (R : Type) (qs : list (request R))
    (b : breaker) :
  state b = HALF_OPEN ->
  half_open_max_requests b <= half_open_request_count b ->
  run b qs = b /\
  transcript b qs = (fun _ => (Raised half_open_limit_error, false)) <$> qs.
Proof. apply run_saturated. Qed.

(** Two trials that die of a [KeyboardInterrupt] use up the driver's cap. *)
Lemma saturated_half_open_is_stuck_witness :
  let interrupted : request string :=
    Request 3 (Raises (Exc KeyboardInterrupt "interrupted")) 3 in
  let b := run tripped [interrupted; interrupted] in
  let qs := [succeeds_at 10; succeeds_at 100; fails_at 1000] in
  state b = HALF_OPEN /\
  half_open_max_requests b <= half_open_request_count b /\
  run b qs = b /\
  transcript b qs = (fun _ => (Raised half_open_limit_error, false)) <$> qs.
Proof.
  intros interrupted b qs.
  split; [reflexivity|]. split; [vm_compute; discriminate|].
  apply (saturated_half_open_is_stuck string qs b);
    [reflexivity|vm_compute; discriminate].
Defined.

(** A trial that fails reopens the circuit and restarts the wait: after a
    call that found the breaker OPEN past its timeout, was let in and
    raised an [Exception], the breaker is OPEN with [last_failure_time] the
    reading taken at that failure, and a call made less than
    [reset_timeout] after it is blocked. *)
Theorem failed_trial_restarts_wait (R : Type) (b : breaker)
    (t now later now' later' : Z) (e : exception) (f : behaviour R) :
  state b = OPEN ->
  last_failure_time b = Some t ->
  reset_timeout b <= now - t ->
  0 < half_open_max_requests b ->
  is_Exception e = true ->
  now' - later < reset_timeout b ->
  let b1 := after (call b now (Raises e : behaviour R) later) in
  state b1 = OPEN /\
  last_failure_time b1 = Some later /\
  failure_count b1 = failure_count b + 1 /\
  call b1 now' f later' = Report (Raised circuit_open_error) b1 false.
Proof.
  intros Hs Ht Hge Hpos He Hlt b1.
  assert (Hb1 : b1 = record_failure later
                  (set_half_open_request_count 1 (set_state HALF_OPEN b))).
  { subst b1. unfold call, open_gate, is_open. rewrite Hs, Ht.
    destruct (Z.leb_spec (reset_timeout b) (now - t)); [|lia].
    unfold half_open_gate; cbn.
    destruct (Z.leb_spec (half_open_max_requests b) 0); [lia|].
    cbn. now rewrite He. }
  assert (H1 : state b1 = OPEN).
  { rewrite Hb1. apply record_failure_half_open. reflexivity. }
  assert (H2 : last_failure_time b1 = Some later).
  { rewrite Hb1. apply record_failure_time. }
  assert (H3 : failure_count b1 = failure_count b + 1).
  { rewrite Hb1, record_failure_count. reflexivity. }
  assert (H4 : reset_timeout b1 = reset_timeout b).
  { rewrite Hb1.
    destruct (record_failure_keeps later
                (set_half_open_request_count 1 (set_state HALF_OPEN b)))
      as (_ & -> & _). reflexivity. }
  repeat (split; [assumption|]).
  apply (call_open_early b1 now' later later' f H1 H2). rewrite H4. exact Hlt.
Qed.

Lemma failed_trial_restarts_wait_witness :
  let b1 := after (call tripped 3 service_ko 4) in
  state tripped = OPEN /\
  last_failure_time tripped = Some 0 /\
  reset_timeout tripped <= 3 - 0 /\
  0 < half_open_max_requests tripped /\
  is_Exception service_failed = true /\
  6 - 4 < reset_timeout tripped /\
  state b1 = OPEN /\
  last_failure_time b1 = Some 4 /\
  failure_count b1 = failure_count tripped + 1 /\
  call b1 6 service_ok 6 = Report (Raised circuit_open_error) b1 false.
Proof.
  intros b1.
  split; [reflexivity|]. split; [reflexivity|].
  split; [vm_compute; discriminate|]. split; [reflexivity|].
  split; [reflexivity|]. split; [reflexivity|].
  apply (failed_trial_restarts_wait string tripped 0 3 4 6 6 service_failed
           service_ok);
    [reflexivity|reflexivity|vm_compute; discriminate|reflexivity|reflexivity
    |reflexivity].
Defined.

(** ** What every call and every schedule keeps *)

Lemma stable_advance {R} (P : breaker -> Prop) (now : Z) (b b' : breaker)
    (th th' : Interleaving.thread R) (ev : Interleaving.event) :
  stable P -> P b ->
  Interleaving.advance now b th = Some (b', th', ev) -> P b'.
Proof.
  intros HP Hb. destruct (HP now b Hb) as (Hg & Hi & Hr & Hf).
  unfold Interleaving.advance. destruct (Interleaving.at_line th).
  - destruct (open_gate now b) as [b1|e] eqn:Ho; intros [= <- _ _]; auto.
  - destruct (is_half_open b); intros [= <- _ _]; exact Hb.
  - destruct (half_open_max_requests b <=? half_open_request_count b);
      intros [= <- _ _]; exact Hb.
  - intros [= <- _ _]. exact Hi.
  - destruct (Interleaving.does th) as [r|e];
      [|destruct (is_Exception e)]; intros [= <- _ _]; exact Hb.
  - intros [= <- _ _]. exact Hr.
  - intros [= <- _ _]. exact Hf.
  - discriminate.
Qed.

Lemma stable_exec {R} (P : breaker -> Prop) (sch : list (nat * Z))
    (s s' : Interleaving.system R) :
  stable P -> P (Interleaving.shared s) ->
  Interleaving.exec sch s = Some s' -> P (Interleaving.shared s').
Proof.
  intros HP. revert s. induction sch as [|[tid now] sch IH]; intros s Hs; cbn.
  - intros [= <-]. exact Hs.
  - unfold Interleaving.step.
    destruct (Interleaving.threads s !! tid) as [th|]; [|discriminate].
    destruct (Interleaving.advance now (Interleaving.shared s) th)
      as [[[b th'] ev]|] eqn:Ha; [|discriminate].
    apply IH. pose proof (stable_advance P _ _ _ _ _ _ HP Hs Ha) as Hb.
    destruct ev; exact Hb.
Qed.

Lemma stable_call {R} (P : breaker -> Prop) (b : breaker) (now later : Z)
    (f : behaviour R) :
  stable P -> P b -> P (after (call b now f later)).
Proof.
  intros HP Hb. unfold call.
  destruct (open_gate now b) as [b1|] eqn:Ho; [|exact Hb].
  assert (H1 : P b1) by (eapply (HP now b Hb); exact Ho).
  unfold half_open_gate. destruct (is_half_open b1).
  - destruct (half_open_max_requests b1 <=? half_open_request_count b1);
      [exact H1|].
    assert (H2 : P (set_half_open_request_count
                      (half_open_request_count b1 + 1) b1))
      by apply (HP now b1 H1).
    destruct f as [r|e]; cbn; [apply (HP now _ H2)|].
    destruct (is_Exception e); cbn; [apply (HP later _ H2)|exact H2].
  - destruct f as [r|e]; cbn; [apply (HP now _ H1)|].
    destruct (is_Exception e); cbn; [apply (HP later _ H1)|exact H1].
Qed.

Lemma stable_run {R} (P : breaker -> Prop) (qs : list (request R))
    (b : breaker) :
  stable P -> P b -> P (run b qs).
Proof.
  intros HP. revert b. induction qs as [|q qs IH]; intros b Hb; [exact Hb|].
  cbn [run]. apply IH. unfold serve. apply stable_call; assumption.
Qed.

Lemma stable_config (c : Z * Z * Z) : stable (fun b => config b = c).
Proof.
  intros now b Hb. split; [|split; [|split]].
  - intros b1 Ho. destruct (open_gate_keeps _ _ _ Ho) as (H1 & H2 & H3 & _).
    unfold config in *. congruence.
  - exact Hb.
  - exact Hb.
  - destruct (record_failure_keeps now b) as (H1 & H2 & H3 & _).
    unfold config in *. congruence.
Qed.

Lemma stable_counters_nonneg : stable counters_nonneg.
Proof.
  intros now b [Hf Hh]. unfold counters_nonneg. split; [|split; [|split]].
  - intros b1. unfold open_gate.
    destruct (is_open b); [|intros [= <-]; auto].
    destruct (last_failure_time b) as [t|]; [|discriminate].
    destruct (reset_timeout b <=? now - t); [|discriminate].
    intros [= <-]. cbn. lia.
  - cbn. lia.
  - cbn. lia.
  - rewrite record_failure_count.
    destruct (record_failure_keeps now b) as (_ & _ & _ & ->). lia.
Qed.

Lemma stable_closed_below_threshold : stable closed_below_threshold.
Proof.
  intros now b [Hpos Hiff]. unfold closed_below_threshold.
  split; [|split; [|split]].
  - intros b1 Ho.
    destruct (open_gate_keeps _ _ _ Ho) as (-> & _ & _ & -> & _).
    split; [exact Hpos|].
    destruct (state b) eqn:Hs.
    + rewrite open_gate_not_open in Ho by congruence.
      injection Ho as <-. rewrite Hs. exact Hiff.
    + pose proof (open_gate_leaves_open _ _ _ Ho) as Hno.
      unfold open_gate, is_open in Ho. rewrite Hs in Ho.
      destruct (last_failure_time b) as [t|]; [|discriminate].
      destruct (reset_timeout b <=? now - t); [|discriminate].
      injection Ho as <-. cbn.
      split; [discriminate|]. intros Hlt. apply Hiff in Hlt. discriminate.
    + rewrite open_gate_not_open in Ho by congruence.
      injection Ho as <-. rewrite Hs. exact Hiff.
  - cbn. auto.
  - cbn. split; [exact Hpos|]. split; [intros _; exact Hpos|reflexivity].
  - rewrite record_failure_count.
    destruct (record_failure_keeps now b) as (-> & _).
    split; [exact Hpos|].
    destruct (state b) eqn:Hs.
    + rewrite (record_failure_closed _ _ Hs).
      destruct (Z.leb_spec (max_failures b) (failure_count b + 1));
        split; try discriminate; try lia; reflexivity.
    + assert (~ failure_count b < max_failures b)
        by (intros Hlt; apply Hiff in Hlt; discriminate).
      unfold record_failure, is_half_open; cbn. rewrite Hs.
      destruct (max_failures b <=? failure_count b + 1); cbn; rewrite ?Hs;
        split; try discriminate; lia.
    + assert (~ failure_count b < max_failures b)
        by (intros Hlt; apply Hiff in Hlt; discriminate).
      rewrite (record_failure_half_open _ _ Hs).
      split; [discriminate|lia].
Qed.

Lemma schedule_keeps_config_aux (R : Type) (sch : list (nat * Z))
    (s s' : Interleaving.system R) :
  Interleaving.exec sch s = Some s' ->
  config (Interleaving.shared s') = config (Interleaving.shared s).
Proof.
  intros He.
  exact (stable_exec (fun b => config b = config (Interleaving.shared s))
           sch s s' (stable_config _) eq_refl He).
Qed.

(** The configuration is fixed: whatever threads are in flight and
    whatever the schedule, [max_failures], [reset_timeout] and
    [half_open_max_requests] of the shared breaker end as they began. *)
Theorem schedule_keeps_config (R : Type) (sch : list (nat * Z))
    (s s' : Interleaving.system R) :
  Interleaving.exec sch s = Some s' ->
  config (Interleaving.shared s') = config (Interleaving.shared s).
Proof.
  apply schedule_keeps_config_aux.
Qed.

Lemma schedule_keeps_config_witness :
  let s := Interleaving.launch tripped 5 service_ok in
  let s' := Interleaving.System
              (Breaker 3 3 2 3 (Some 0) HALF_OPEN 5)
              (replicate 5 (Interleaving.Thread
                              (Interleaving.L58 "Service succeeded!"%string)
                              service_ok))
              5 0 in
  Interleaving.exec lockstep_entry s = Some s' /\
  config (Interleaving.shared s') = config (Interleaving.shared s).
Proof.
  intros s s'. split; [reflexivity|].
  apply (schedule_keeps_config string lockstep_entry s s'). reflexivity.
Defined.

(** From a freshly initialised breaker, through any calls made one after
    the other and then any number of threads under any schedule, neither
    [failure_count] nor [half_open_request_count] is ever negative. *)
Theorem counters_never_negative (R : Type) (mf rt hm : Z)
    (qs : list (request R)) (n : nat) (f : behaviour R)
    (sch : list (nat * Z)) (s' : Interleaving.system R) :
  Interleaving.exec sch (Interleaving.launch (run (fresh mf rt hm) qs) n f)
    = Some s' ->
  0 <= failure_count (Interleaving.shared s') /\
  0 <= half_open_request_count (Interleaving.shared s').
Proof.
  intros He.
  refine (stable_exec counters_nonneg sch _ s' stable_counters_nonneg _ He).
  cbn. apply stable_run; [exact stable_counters_nonneg|].
  split; cbn; lia.
Qed.

Lemma counters_never_negative_witness :
  let s' := Interleaving.System
              (Breaker 3 3 2 3 (Some 0) HALF_OPEN 5)
              (replicate 5 (Interleaving.Thread
                              (Interleaving.L58 "Service succeeded!"%string)
                              service_ok))
              5 0 in
  Interleaving.exec lockstep_entry
    (Interleaving.launch
       (run (fresh 3 3 2) [fails_at 0; fails_at 0; fails_at 0]) 5 service_ok)
    = Some s' /\
  0 <= failure_count (Interleaving.shared s') /\
  0 <= half_open_request_count (Interleaving.shared s').
Proof.
  intros s'. split; [reflexivity|].
  apply (counters_never_negative string 3 3 2
           [fails_at 0; fails_at 0; fails_at 0] 5 service_ok lockstep_entry s').
  reflexivity.
Defined.

(** For a breaker built with a positive [max_failures], after any calls
    and under any schedule, the circuit is CLOSED exactly when
    [failure_count] is below [max_failures]. *)
Theorem closed_iff_below_threshold (R : Type) (mf rt hm : Z)
    (qs : list (request R)) (n : nat) (f : behaviour R)
    (sch : list (nat * Z)) (s' : Interleaving.system R) :
  0 < mf ->
  Interleaving.exec sch (Interleaving.launch (run (fresh mf rt hm) qs) n f)
    = Some s' ->
  max_failures (Interleaving.shared s') = mf /\
  (state (Interleaving.shared s') = CLOSED <->
   failure_count (Interleaving.shared s') < mf).
Proof.
  intros Hpos He.
  assert (H0 : closed_below_threshold (run (fresh mf rt hm) qs)).
  { apply stable_run; [exact stable_closed_below_threshold|].
    split; cbn; [exact Hpos|]. split; auto. }
  assert (Hc : config (run (fresh mf rt hm) qs) = (mf, rt, hm)).
  { apply (stable_run (fun b => config b = (mf, rt, hm)));
      [apply stable_config|reflexivity]. }
  pose proof (stable_exec closed_below_threshold sch
                (Interleaving.launch (run (fresh mf rt hm) qs) n f) s'
                stable_closed_below_threshold H0 He) as [_ Hiff].
  pose proof (schedule_keeps_config_aux R sch _ s' He) as Hk.
  cbn in Hk. rewrite Hc in Hk. injection Hk as Hm _ _.
  split; [exact Hm|]. rewrite <- Hm. exact Hiff.
Qed.

Lemma closed_iff_below_threshold_witness :
  let s' := Interleaving.System
              (Breaker 3 3 2 3 (Some 0) HALF_OPEN 5)
              (replicate 5 (Interleaving.Thread
                              (Interleaving.L58 "Service succeeded!"%string)
                              service_ok))
              5 0 in
  0 < 3 /\
  Interleaving.exec lockstep_entry
    (Interleaving.launch
       (run (fresh 3 3 2) [fails_at 0; fails_at 0; fails_at 0]) 5 service_ok)
    = Some s' /\
  max_failures (Interleaving.shared s') = 3 /\
  (state (Interleaving.shared s') = CLOSED <->
   failure_count (Interleaving.shared s') < 3).
Proof.
  intros s'. split; [reflexivity|]. split; [reflexivity|].
  apply (closed_iff_below_threshold string 3 3 2
           [fails_at 0; fails_at 0; fails_at 0] 5 service_ok lockstep_entry s');
    reflexivity.
Defined.

(** ** Threads at an open circuit *)

Lemma kept_out_step {R} (b : breaker) (t : Z) (tid : nat) (now : Z)
    (s s1 : Interleaving.system R) :
  state b = OPEN ->
  last_failure_time b = Some t ->
  now - t < reset_timeout b ->
  Interleaving.shared s = b ->
  Forall kept_out (Interleaving.threads s) ->
  Interleaving.step tid now s = Some s1 ->
  Interleaving.shared s1 = b /\
  Interleaving.invocations s1 = Interleaving.invocations s /\
  Interleaving.rejections s1 = S (Interleaving.rejections s) /\
  Forall kept_out (Interleaving.threads s1).
Proof.
  intros Hs Ht Hlt Hb Hall. unfold Interleaving.step.
  destruct (Interleaving.threads s !! tid) as [th|] eqn:Hth; [|discriminate].
  pose proof (Forall_lookup_1 _ _ _ _ Hall Hth) as [Hk|Hk];
    unfold Interleaving.advance; rewrite Hk; [|discriminate].
  rewrite Hb. unfold open_gate, is_open. rewrite Hs, Ht.
  destruct (Z.leb_spec (reset_timeout b) (now - t)); [lia|].
  intros [= <-]. cbn. repeat split; try reflexivity.
  apply Forall_insert; [exact Hall|]. right. reflexivity.
Qed.

(** While the breaker is OPEN and every clock reading is short of the
    timeout, no schedule of no number of threads gets a call through: each
    step taken is a rejection at line 48, the wrapped function is never
    invoked, and the breaker is left exactly as it was. *)
Theorem open_circuit_keeps_threads_out (R : Type) (b : breaker) (t : Z)
    (n : nat) (f : behaviour R) (sch : list (nat * Z))
    (s' : Interleaving.system R) :
  state b = OPEN ->
  last_failure_time b = Some t ->
  Forall (fun x => x.2 - t < reset_timeout b) sch ->
  Interleaving.exec sch (Interleaving.launch b n f) = Some s' ->
  Interleaving.shared s' = b /\
  Interleaving.invocations s' = 0%nat /\
  Interleaving.rejections s' = length sch /\
  Forall kept_out (Interleaving.threads s').
Proof.
  intros Hs Ht Hall He.
  assert (G : forall (l : list (nat * Z)) (s : Interleaving.system R),
             Forall (fun x => x.2 - t < reset_timeout b) l ->
             Interleaving.shared s = b ->
             Forall kept_out (Interleaving.threads s) ->
             Interleaving.exec l s = Some s' ->
             Interleaving.shared s' = b /\
             Interleaving.invocations s' = Interleaving.invocations s /\
             Interleaving.rejections s' =
               (Interleaving.rejections s + length l)%nat /\
             Forall kept_out (Interleaving.threads s')).
  { induction l as [|[tid now] l IH]; intros s Hl Hb Hk; cbn [Interleaving.exec].
    - intros [= <-]. cbn. rewrite Nat.add_0_r. auto.
    - apply Forall_cons in Hl as [Hnow Hl]. cbn in Hnow.
      destruct (Interleaving.step tid now s) as [s1|] eqn:Hst; [|discriminate].
      destruct (kept_out_step b t tid now s s1 Hs Ht Hnow Hb Hk Hst)
        as (H1 & H2 & H3 & H4).
      intros Hex. destruct (IH s1 Hl H1 H4 Hex) as (G1 & G2 & G3 & G4).
      cbn [length]. repeat split; [exact G1|congruence|lia|exact G4]. }
  apply (G sch (Interleaving.launch b n f) Hall eq_refl); [|exact He].
  cbn. apply Forall_replicate. left. reflexivity.
Qed.

Lemma open_circuit_keeps_threads_out_witness :
  let sch := [(2%nat, 1); (0%nat, 2)] in
  let s' := Interleaving.System tripped
              [Interleaving.Thread
                 (Interleaving.Done (Raised circuit_open_error)) service_ok;
               Interleaving.Thread Interleaving.L40 service_ok;
               Interleaving.Thread
                 (Interleaving.Done (Raised circuit_open_error)) service_ok]
              0 2 in
  state tripped = OPEN /\
  last_failure_time tripped = Some 0 /\
  Forall (fun x => x.2 - 0 < reset_timeout tripped) sch /\
  Interleaving.exec sch (Interleaving.launch tripped 3 service_ok) = Some s' /\
  Interleaving.shared s' = tripped /\
  Interleaving.invocations s' = 0%nat /\
  Interleaving.rejections s' = length sch /\
  Forall kept_out (Interleaving.threads s').
Proof.
  intros sch s'.
  assert (Hall : Forall (fun x : nat * Z => x.2 - 0 < reset_timeout tripped) sch)
    by (repeat constructor).
  split; [reflexivity|]. split; [reflexivity|]. split; [exact Hall|].
  split; [reflexivity|].
  apply (open_circuit_keeps_threads_out string tripped 0 3 service_ok sch s');
    [reflexivity|reflexivity|exact Hall|reflexivity].
Defined.

(** ** One instance, one configuration *)

Lemma perform_singleton {R} (a : action R) (s : store) :
  singleton s -> singleton (perform s a).
Proof.
  intros [[Hh Hi]|(b & Hh & Hi)]; destruct a as [mf rt hm|ref now f later];
    cbn [perform].
  - rewrite (construct_fresh mf rt hm s Hi), Hh. right.
    exists (fresh mf rt hm). auto.
  - unfold call_on. rewrite Hh. cbn. left. auto.
  - assert (Hl : heap s !! 0%nat = Some (Ready b)) by (rewrite Hh; reflexivity).
    rewrite (construct_existing mf rt hm s 0%nat b Hi Hl). right. eauto.
  - unfold call_on. rewrite Hh.
    destruct ref as [|ref]; cbn; right; eauto.
Qed.

Lemma play_singleton {R} (acts : list (action R)) (s : store) :
  singleton s -> singleton (play s acts).
Proof.
  revert s. induction acts as [|a acts IH]; intros s Hs; [exact Hs|].
  cbn. apply IH, perform_singleton, Hs.
Qed.

(** Whatever a program constructs and calls, the class never allocates a
    second object: the heap holds nothing or the one initialised instance
    at address 0, and every construction returns that address. *)
Theorem class_allocates_once (R : Type) (acts : list (action R))
    (mf rt hm : Z) :
  singleton (play empty_store acts) /\
  fst (construct mf rt hm (play empty_store acts)) = 0%nat /\
  length (heap (snd (construct mf rt hm (play empty_store acts)))) = 1%nat.
Proof.
  assert (Hs : singleton (play empty_store acts)).
  { apply play_singleton. left. auto. }
  split; [exact Hs|].
  destruct Hs as [[Hh Hi]|(b & Hh & Hi)].
  - rewrite (construct_fresh mf rt hm _ Hi), Hh. auto.
  - assert (Hl : heap (play empty_store acts) !! 0%nat = Some (Ready b))
      by (rewrite Hh; reflexivity).
    rewrite (construct_existing mf rt hm _ 0%nat b Hi Hl). cbn.
    rewrite Hh. auto.
Qed.

Lemma perform_fixed_config {R} (c : Z * Z * Z) (a : action R) (s : store) :
  (exists b, heap s = [Ready b] /\ _instance s = Some 0%nat /\ config b = c) ->
  exists b, heap (perform s a) = [Ready b] /\
            _instance (perform s a) = Some 0%nat /\ config b = c.
Proof.
  intros (b & Hh & Hi & Hc). destruct a as [mf rt hm|ref now f later];
    cbn [perform].
  - assert (Hl : heap s !! 0%nat = Some (Ready b)) by (rewrite Hh; reflexivity).
    rewrite (construct_existing mf rt hm s 0%nat b Hi Hl). eauto.
  - unfold call_on. rewrite Hh. destruct ref as [|ref]; cbn; [|eauto].
    exists (after (call b now f later)). split; [reflexivity|].
    split; [exact Hi|].
    destruct (call_keeps_config b now later f) as (H1 & H2 & H3).
    unfold config in *. congruence.
Qed.

(** The configuration of the instance is the one of the first
    construction, for good: after any further constructions, with whatever
    arguments, and any calls, the object at the returned address still
    holds the first [max_failures], [reset_timeout] and
    [half_open_max_requests]. *)
Theorem first_construction_fixes_config (R : Type) (mf rt hm : Z)
    (acts : list (action R)) :
  exists b,
    heap (play (snd (construct mf rt hm empty_store)) acts)
      !! fst (construct mf rt hm empty_store) = Some (Ready b) /\
    config b = (mf, rt, hm).
Proof.
  assert (G : forall (l : list (action R)) s,
             (exists b, heap s = [Ready b] /\ _instance s = Some 0%nat /\
                        config b = (mf, rt, hm)) ->
             exists b, heap (play s l) = [Ready b] /\
                       _instance (play s l) = Some 0%nat /\
                       config b = (mf, rt, hm)).
  { induction l as [|a l IH]; intros s Hs; [exact Hs|].
    cbn. apply IH, perform_fixed_config, Hs. }
  destruct (G acts (snd (construct mf rt hm empty_store))) as (b & Hh & _ & Hc).
  { exists (fresh mf rt hm). auto. }
  exists b. rewrite Hh. auto.
Qed.

(** ** The driver *)

(** [make_request] never lets an exception through and its one line tells
    a blocked call from a failed one: on the breaker of any history, it
    prints the result or the [Service call exception] line exactly when the
    call reached [unreliable_service], and one of the two [RuntimeError]
    lines when the call was turned away. *)
Theorem make_request_reports (mf rt hm : Z) (qs : list (request string))
    (should_fail : bool) (clk : clock) (k : nat) :
  let b := run (fresh mf rt hm) qs in
  let eff := (make_request should_fail clk k b).1.1 in
  match admitted b (clk k) with
  | Some _ =>
      eff = Prints (if should_fail
                    then "Service call exception: Service failed!"
                    else "Service succeeded!")
  | None =>
      eff = Prints "RuntimeError: Circuit is open. Service call blocked." \/
      eff = Prints "RuntimeError: Circuit is HALF-OPEN. Too many test requests."
  end.
Proof.
  intros b eff. subst eff. unfold make_request, clocked_call. cbn [fst].
  set (later := clk (if is_open b then S k else k)).
  destruct (admitted b (clk k)) as [b2|] eqn:Ha.
  - rewrite (call_admitted _ _ _ _ _ Ha). destruct should_fail; reflexivity.
  - assert (Hinv : open_is_timed b) by (apply run_timed; intros [=]).
    assert (Hno : invoked (call b (clk k) (unreliable_service should_fail) later)
                  = false).
    { destruct (invoked _) eqn:Hi; [|reflexivity].
      apply call_invoked_iff_admitted in Hi. rewrite Ha in Hi.
      destruct Hi as [? [=]]. }
    destruct (blocked_ending b (clk k) later _ Hinv Hno) as [-> | ->];
      [left|right]; reflexivity.
Qed.

Lemma make_request_closed (should_fail : bool) (clk : clock) (k : nat)
    (b : breaker) :
  state b = CLOSED ->
  make_request should_fail clk k b =
  if should_fail
  then (Prints "Service call exception: Service failed!",
        record_failure (clk k) b, S k)
  else (Prints "Service succeeded!", reset b, k).
Proof.
  intros Hs. unfold make_request, clocked_call, is_open. rewrite Hs.
  rewrite (call_closed _ _ _ _ Hs). destruct should_fail; reflexivity.
Qed.

Lemma make_request_open_early (should_fail : bool) (clk : clock) (k : nat)
    (b : breaker) (t : Z) :
  state b = OPEN ->
  last_failure_time b = Some t ->
  clk k - t < reset_timeout b ->
  make_request should_fail clk k b =
  (Prints "RuntimeError: Circuit is open. Service call blocked.", b, S k).
Proof.
  intros Hs Ht Hlt. unfold make_request, clocked_call, is_open. rewrite Hs.
  rewrite (call_open_early b (clk k) t _ _ Hs Ht Hlt). reflexivity.
Qed.

Lemma make_request_trial_succeeds (clk : clock) (k : nat) (b : breaker)
    (t : Z) :
  state b = OPEN ->
  last_failure_time b = Some t ->
  reset_timeout b <= clk k - t ->
  0 < half_open_max_requests b ->
  make_request false clk k b =
  (Prints "Service succeeded!",
   reset (set_half_open_request_count 1 (set_state HALF_OPEN b)), S k).
Proof.
  intros Hs Ht Hge Hpos.
  unfold make_request, clocked_call, is_open, call, open_gate, is_open.
  rewrite Hs, Ht.
  destruct (Z.leb_spec (reset_timeout b) (clk k - t)); [|lia].
  unfold half_open_gate; cbn.
  destruct (Z.leb_spec (half_open_max_requests b) 0); [lia|reflexivity].
Qed.

Lemma interpret_banner (clk : clock) (k : nat) (b : breaker) (title : string)
    (prog : list stmt) :
  interpret clk k b (Banner title :: prog) =
  let '(out, exn, b', k') := interpret clk k b prog in
  (EmptyString :: title :: out, exn, b', k').
Proof. reflexivity. Qed.

Lemma interpret_sleep (clk : clock) (k : nat) (b : breaker) (seconds : Z)
    (prog : list stmt) :
  interpret clk k b (Sleep seconds :: prog) = interpret clk k b prog.
Proof. reflexivity. Qed.

Lemma interpret_prints (clk : clock) (k k1 : nat) (b b1 : breaker)
    (should_fail : bool) (line : string) (prog : list stmt) :
  make_request should_fail clk k b = (Prints line, b1, k1) ->
  interpret clk k b (MakeRequest should_fail :: prog) =
  let '(out, exn, b', k') := interpret clk k1 b1 prog in
  (line :: out, exn, b', k').
Proof. intros H. cbn [interpret]. rewrite H. reflexivity. Qed.

(** The driver's output, for every clock on which the fourth failing
    request comes less than 3 after the third failure was recorded and the
    pause of line 116 ends at least 3 after it: the third failure opens the
    circuit, the fourth failing request is blocked without reaching the
    service, the first request after the pause is the trial and closes the
    circuit, and the two failures after it are counted from zero.  The
    clock is read seven times and no exception escapes. *)
Theorem driver_output (clk : clock) :
  clk 3%nat - clk 2%nat < 3 ->
  3 <= clk 4%nat - clk 2%nat ->
  interpret clk 0 circuit_breaker driver_script =
  ([EmptyString; "--- Initial successful requests ---";
    "Service succeeded!"; "Service succeeded!";
    EmptyString; "--- Simulating failures ---";
    "Service call exception: Service failed!";
    "Service call exception: Service failed!";
    "Service call exception: Service failed!";
    "RuntimeError: Circuit is open. Service call blocked.";
    EmptyString; "--- Waiting for reset timeout ---";
    EmptyString; "--- Circuit transitions to HALF-OPEN ---";
    "Service succeeded!";
    "Service call exception: Service failed!";
    "Service call exception: Service failed!";
    "Service succeeded!";
    EmptyString; "--- Back to normal operation ---";
    "Service succeeded!"]%string,
   None,
   Breaker 3 3 2 0 (Some (clk 6%nat)) CLOSED 0,
   7%nat).
Proof.
  intros H1 H2. unfold driver_script.
  rewrite interpret_banner.
  do 2 (erewrite interpret_prints
          by (rewrite make_request_closed by reflexivity; reflexivity)).
  rewrite interpret_banner.
  do 3 (erewrite interpret_prints
          by (rewrite make_request_closed by reflexivity; reflexivity)).
  erewrite interpret_prints
    by (apply (make_request_open_early true clk 3 _ (clk 2%nat));
        [reflexivity|reflexivity|exact H1]).
  rewrite interpret_banner, interpret_sleep, interpret_banner.
  erewrite interpret_prints
    by (apply (make_request_trial_succeeds clk 4 _ (clk 2%nat));
        [reflexivity|reflexivity|exact H2|reflexivity]).
  do 3 (erewrite interpret_prints
          by (rewrite make_request_closed by reflexivity; reflexivity)).
  rewrite interpret_banner.
  erewrite interpret_prints
    by (rewrite make_request_closed by reflexivity; reflexivity).
  reflexivity.
Qed.

Lemma driver_output_witness :
  let clk : clock := fun n => 2 * Z.of_nat n in
  clk 3%nat - clk 2%nat < 3 /\
  3 <= clk 4%nat - clk 2%nat /\
  interpret clk 0 circuit_breaker driver_script =
  ([EmptyString; "--- Initial successful requests ---";
    "Service succeeded!"; "Service succeeded!";
    EmptyString; "--- Simulating failures ---";
    "Service call exception: Service failed!";
    "Service call exception: Service failed!";
    "Service call exception: Service failed!";
    "RuntimeError: Circuit is open. Service call blocked.";
    EmptyString; "--- Waiting for reset timeout ---";
    EmptyString; "--- Circuit transitions to HALF-OPEN ---";
    "Service succeeded!";
    "Service call exception: Service failed!";
    "Service call exception: Service failed!";
    "Service succeeded!";
    EmptyString; "--- Back to normal operation ---";
    "Service succeeded!"]%string,
   None,
   Breaker 3 3 2 0 (Some (clk 6%nat)) CLOSED 0,
   7%nat).
Proof.
  intros clk. split; [reflexivity|]. split; [vm_compute; discriminate|].
  apply (driver_output clk); [reflexivity|vm_compute; discriminate].
Defined.

(** ** Two more edges *)

(** A cap on trials that is zero or negative leaves no way back: the call
    that finds such a breaker OPEN past its timeout moves it to HALF-OPEN
    and is refused, and so is every later call, whenever it is made; the
    wrapped function is never reached again. *)
Theorem nonpositive_cap_never_recovers (R : Type) (b : breaker) (t : Z)
    (q : request R) (qs : list (request R)) :
  state b = OPEN ->
  last_failure_time b = Some t ->
  reset_timeout b <= entry_time q - t ->
  half_open_max_requests b <= 0 ->
  run b (q :: qs) = set_half_open_request_count 0 (set_state HALF_OPEN b) /\
  transcript b (q :: qs) =
    (fun _ => (Raised half_open_limit_error, false)) <$> (q :: qs).
Proof.
  intros Hs Ht Hge Hcap.
  set (b1 := set_half_open_request_count 0 (set_state HALF_OPEN b)).
  assert (Hc : serve b q = Report (Raised half_open_limit_error) b1 false).
  { unfold serve, call, open_gate, is_open. rewrite Hs, Ht.
    destruct (Z.leb_spec (reset_timeout b) (entry_time q - t)); [|lia].
    unfold half_open_gate; cbn.
    destruct (Z.leb_spec (half_open_max_requests b) 0); [reflexivity|lia]. }
  destruct (run_saturated qs b1 eq_refl Hcap) as [H1 H2].
  cbn [run transcript fmap list_fmap]. rewrite Hc. cbn [after ending invoked].
  rewrite H1, H2. auto.
Qed.

Lemma nonpositive_cap_never_recovers_witness :
  let b := run (fresh 3 3 0) [fails_at 0; fails_at 0; fails_at 0] in
  let qs := [succeeds_at 50; succeeds_at 500] in
  state b = OPEN /\
  last_failure_time b = Some 0 /\
  reset_timeout b <= entry_time (succeeds_at 3) - 0 /\
  half_open_max_requests b <= 0 /\
  run b (succeeds_at 3 :: qs) =
    set_half_open_request_count 0 (set_state HALF_OPEN b) /\
  transcript b (succeeds_at 3 :: qs) =
    (fun _ => (Raised half_open_limit_error, false)) <$> (succeeds_at 3 :: qs).
Proof.
  intros b qs.
  split; [reflexivity|]. split; [reflexivity|].
  split; [vm_compute; discriminate|]. split; [vm_compute; discriminate|].
  apply (nonpositive_cap_never_recovers string b 0 (succeeds_at 3) qs);
    [reflexivity|reflexivity|vm_compute; discriminate|vm_compute; discriminate].
Defined.

Lemma unhindered_step {R} (r : R) (tid : nat) (now : Z)
    (s s1 : Interleaving.system R) :
  state (Interleaving.shared s) = CLOSED ->
  Forall (unhindered r) (Interleaving.threads s) ->
  Interleaving.step tid now s = Some s1 ->
  state (Interleaving.shared s1) = CLOSED /\
  Interleaving.rejections s1 = Interleaving.rejections s /\
  Forall (unhindered r) (Interleaving.threads s1).
Proof.
  intros Hs Hall. unfold Interleaving.step.
  destruct (Interleaving.threads s !! tid) as [th|] eqn:Hth; [|discriminate].
  destruct (Forall_lookup_1 _ _ _ _ Hall Hth) as [Hd Hat].
  unfold Interleaving.advance. rewrite Hd.
  destruct Hat as [Hk|[Hk|[Hk|[Hk|Hk]]]]; rewrite Hk.
  - rewrite open_gate_not_open by congruence.
    intros [= <-]. cbn. repeat split; auto.
    apply Forall_insert; [exact Hall|]. split; cbn; auto.
  - unfold is_half_open. rewrite Hs.
    intros [= <-]. cbn. repeat split; auto.
    apply Forall_insert; [exact Hall|]. split; cbn; auto.
  - intros [= <-]. cbn. repeat split; auto.
    apply Forall_insert; [exact Hall|]. split; cbn; auto 6.
  - intros [= <-]. cbn. repeat split; auto.
    apply Forall_insert; [exact Hall|]. split; cbn; auto 6.
  - discriminate.
Qed.

(** A healthy service is never kept from its callers: on a CLOSED breaker,
    threads whose function returns are not rejected under any schedule, the
    circuit stays CLOSED, and every call that has finished has returned the
    function's result. *)
Theorem healthy_calls_never_rejected (R : Type) (b : breaker) (n : nat)
    (r : R) (sch : list (nat * Z)) (s' : Interleaving.system R) :
  state b = CLOSED ->
  Interleaving.exec sch (Interleaving.launch b n (Returns r)) = Some s' ->
  state (Interleaving.shared s') = CLOSED /\
  Interleaving.rejections s' = 0%nat /\
  Forall (fun th => forall c, Interleaving.at_line th = Interleaving.Done c ->
                              c = Returned r)
         (Interleaving.threads s').
Proof.
  intros Hs He.
  assert (G : forall (l : list (nat * Z)) (s : Interleaving.system R),
             state (Interleaving.shared s) = CLOSED ->
             Forall (unhindered r) (Interleaving.threads s) ->
             Interleaving.exec l s = Some s' ->
             state (Interleaving.shared s') = CLOSED /\
             Interleaving.rejections s' = Interleaving.rejections s /\
             Forall (unhindered r) (Interleaving.threads s')).
  { induction l as [|[tid now] l IH]; intros s Hc Hall; cbn [Interleaving.exec].
    - intros [= <-]. auto.
    - destruct (Interleaving.step tid now s) as [s1|] eqn:Hst; [|discriminate].
      destruct (unhindered_step r tid now s s1 Hc Hall Hst) as (H1 & H2 & H3).
      intros Hex. destruct (IH s1 H1 H3 Hex) as (G1 & G2 & G3).
      repeat split; [exact G1|congruence|exact G3]. }
  destruct (G sch (Interleaving.launch b n (Returns r)) Hs) as (G1 & G2 & G3);
    [|exact He|].
  - cbn. apply Forall_replicate. split; cbn; auto.
  - split; [exact G1|]. split; [exact G2|].
    eapply Forall_impl; [exact G3|].
    intros th [_ Hat] c Hc.
    destruct Hat as [Hk|[Hk|[Hk|[Hk|Hk]]]]; congruence.
Qed.

Lemma healthy_calls_never_rejected_witness :
  let sch := [(0%nat, 0); (1%nat, 0); (0%nat, 0); (0%nat, 0); (0%nat, 0)] in
  let s' := Interleaving.System
              (Breaker 3 3 2 0 None CLOSED 0)
              [Interleaving.Thread
                 (Interleaving.Done (Returned "Service succeeded!"%string))
                 service_ok;
               Interleaving.Thread Interleaving.L50 service_ok]
              1 0 in
  state circuit_breaker = CLOSED /\
  Interleaving.exec sch
    (Interleaving.launch circuit_breaker 2 (Returns "Service succeeded!"%string))
    = Some s' /\
  state (Interleaving.shared s') = CLOSED /\
  Interleaving.rejections s' = 0%nat /\
  Forall (fun th => forall c, Interleaving.at_line th = Interleaving.Done c ->
                              c = Returned "Service succeeded!"%string)
         (Interleaving.threads s').
Proof.
  intros sch s'. split; [reflexivity|]. split; [reflexivity|].
  apply (healthy_calls_never_rejected string circuit_breaker 2
           "Service succeeded!"%string sch s'); reflexivity.
Defined.

(** ** The call that ends the wait, among other calls *)




